(** * The S3 artifact client of [om]: a shallow embedding of
      [commands/s3_client.go] and the properties of its resolver and
      download path.

    Conventions of the embedding.
    - A Go [string] is a Rocq [string] (a sequence of bytes); a [[]string]
      is a [list string]; [append] adds at the end.
    - A Go [(T, error)] result is a [result T]: [Ok v], [Err e], or [Panic]
      where the Go code panics ([regexp.MustCompile] on a pattern that does
      not compile, an index out of range).
    - The packages the client calls ([strings], [fmt], [regexp],
      [path/filepath], [io], [os], [stow]) are modelled next to it, each
      function under its Go name.  Where Go reads a string rune by rune
      (the dot of a pattern, [?] and the classes of a glob) the bytes are
      decoded as UTF-8, as [utf8.DecodeRuneInString] does.
    - Interfaces ([Stower], [stow.Location], [stow.Container], [stow.Item],
      [io.Reader]) are records of their methods, so every statement below
      holds for any implementation that is injected. *)

From Stdlib Require Import Ascii String List ZArith Lia Bool.
From stdpp Require Import base option list strings gmap.

Local Open Scope string_scope.

(** ** Errors and results *)

(** A Go [error] value.  [errorString] is what [errors.New] and
    [fmt.Errorf] build; the sentinels of the standard library keep their
    identity; [foreign] is an error value handed over by a collaborator
    (the storage gateway, the operating system). *)
Inductive error : Type :=
| errorString (msg : string)
| io_EOF
| io_ErrShortWrite
| filepath_ErrBadPattern
| foreign (msg : string).

(** [err.Error()] *)
Definition Error (e : error) : string :=
  match e with
  | errorString msg => msg
  | io_EOF => "EOF"
  | io_ErrShortWrite => "short write"
  | filepath_ErrBadPattern => "syntax error in pattern"
  | foreign msg => msg
  end.

Inductive result (A : Type) : Type :=
| Ok (a : A)
| Err (e : error)
| Panic.

Arguments Ok {A} a.
Arguments Err {A} e.
Arguments Panic {A}.

(** ** Package [strings] and [fmt] *)

Definition LF : ascii := "010"%char.

Fixpoint byte_in (c : ascii) (cutset : string) : bool :=
  match cutset with
  | EmptyString => false
  | String d cutset' => Ascii.eqb c d || byte_in c cutset'
  end.

Fixpoint strings_TrimLeft (s cutset : string) : string :=
  match s with
  | EmptyString => EmptyString
  | String c s' => if byte_in c cutset then strings_TrimLeft s' cutset else s
  end.

Fixpoint strings_TrimRight (s cutset : string) : string :=
  match s with
  | EmptyString => EmptyString
  | String c s' =>
      match strings_TrimRight s' cutset with
      | EmptyString => if byte_in c cutset then EmptyString else String c EmptyString
      | t => String c t
      end
  end.

(** [strings.Trim(s, cutset)]: all leading and trailing bytes of [cutset]
    removed. *)
Definition strings_Trim (s cutset : string) : string :=
  strings_TrimRight (strings_TrimLeft s cutset) cutset.

(** [strings.Join(elems, sep)] *)
Fixpoint strings_Join (elems : list string) (sep : string) : string :=
  match elems with
  | [] => EmptyString
  | [e] => e
  | e :: elems' => e +:+ sep +:+ strings_Join elems' sep
  end.

Fixpoint strings_HasPrefix (s prefix : string) {struct prefix} : bool :=
  match prefix, s with
  | EmptyString, _ => true
  | String p prefix', String c s' => Ascii.eqb c p && strings_HasPrefix s' prefix'
  | String _ _, EmptyString => false
  end.

(** [strings.Contains(s, substr)] *)
Fixpoint strings_Contains (s substr : string) : bool :=
  strings_HasPrefix s substr ||
  match s with
  | EmptyString => false
  | String _ s' => strings_Contains s' substr
  end.

(** What [fmt.Sprintf] appends for operands its format did not use. *)
Fixpoint fmt_extra (args : list string) : string :=
  match args with
  | [] => EmptyString
  | [a] => "string=" +:+ a
  | a :: args' => "string=" +:+ a +:+ ", " +:+ fmt_extra args'
  end.

(** [fmt.Sprintf(format, args...)] for string operands and the verbs the
    client uses: [%s] prints the next operand, any other byte is copied. *)
Fixpoint fmt_Sprintf (format : string) (args : list string) : string :=
  match format with
  | EmptyString =>
      match args with
      | [] => EmptyString
      | _ => "%!(EXTRA " +:+ fmt_extra args +:+ ")"
      end
  | String "%" (String "s" format') =>
      match args with
      | a :: args' => a +:+ fmt_Sprintf format' args'
      | [] => "%!s(MISSING)" +:+ fmt_Sprintf format' []
      end
  | String c format' => String c (fmt_Sprintf format' args)
  end.

(** [fmt.Errorf(format, args...)] *)
Definition fmt_Errorf (format : string) (args : list string) : error :=
  errorString (fmt_Sprintf format args).

(** [errors.New(text)] *)
Definition errors_New (text : string) : error := errorString text.

(** ** Package [unicode/utf8] *)

Definition RuneError : N := 65533%N.

Definition byte_val (c : ascii) : N := N_of_ascii c.

Definition between (lo hi b : N) : bool := (N.leb lo b && N.leb b hi)%bool.

(** The table [first] for a leading byte above the ASCII range: the
    length of the sequence and the values accepted for its second byte;
    [None] for a byte that starts no sequence. *)
Definition utf8_first (s0 : N) : option (nat * (N * N)) :=
  if between 194 223 s0 then Some (2, (128, 191)%N)
  else if N.eqb s0 224 then Some (3, (160, 191)%N)
  else if between 225 236 s0 then Some (3, (128, 191)%N)
  else if N.eqb s0 237 then Some (3, (128, 159)%N)
  else if between 238 239 s0 then Some (3, (128, 191)%N)
  else if N.eqb s0 240 then Some (4, (144, 191)%N)
  else if between 241 243 s0 then Some (4, (128, 191)%N)
  else if N.eqb s0 244 then Some (4, (128, 143)%N)
  else None.

(** [utf8.DecodeRuneInString(s)]: the first rune of [s] and its width in
    bytes; [(RuneError, 0)] for the empty string, [(RuneError, 1)] for an
    encoding that is not valid. *)
Definition utf8_DecodeRuneInString (s : string) : N * nat :=
  match s with
  | EmptyString => (RuneError, 0)
  | String c0 t0 =>
      let s0 := byte_val c0 in
      if N.ltb s0 128 then (s0, 1)
      else
        match utf8_first s0 with
        | None => (RuneError, 1)
        | Some (sz, (lo, hi)) =>
            if Nat.ltb (String.length s) sz then (RuneError, 1)
            else
              match t0 with
              | EmptyString => (RuneError, 1)
              | String c1 t1 =>
                  let s1 := byte_val c1 in
                  if negb (between lo hi s1) then (RuneError, 1)
                  else if Nat.leb sz 2
                  then (N.lor (N.shiftl (N.land s0 31) 6) (N.land s1 63), 2)
                  else
                    match t1 with
                    | EmptyString => (RuneError, 1)
                    | String c2 t2 =>
                        let s2 := byte_val c2 in
                        if negb (between 128 191 s2) then (RuneError, 1)
                        else if Nat.leb sz 3
                        then (N.lor (N.shiftl (N.land s0 15) 12)
                                (N.lor (N.shiftl (N.land s1 63) 6) (N.land s2 63)), 3)
                        else
                          match t2 with
                          | EmptyString => (RuneError, 1)
                          | String c3 _ =>
                              let s3 := byte_val c3 in
                              if negb (between 128 191 s3) then (RuneError, 1)
                              else (N.lor (N.shiftl (N.land s0 7) 18)
                                      (N.lor (N.shiftl (N.land s1 63) 12)
                                         (N.lor (N.shiftl (N.land s2 63) 6)
                                            (N.land s3 63))), 4)
                          end
                    end
              end
        end
  end.

(** [s[n:]] *)
Fixpoint skip_bytes (n : nat) (s : string) : string :=
  match n, s with
  | S n', String _ s' => skip_bytes n' s'
  | _, _ => s
  end.

(** ** Package [regexp] *)

(** The bytes [regexp.QuoteMeta] escapes: [\.+*?()|[]{}^$]. *)
Definition special (c : ascii) : bool := byte_in c "\.+*?()|[]{}^$".

(** [regexp.QuoteMeta(s)]: a backslash before every special byte. *)
Fixpoint regexp_QuoteMeta (s : string) : string :=
  match s with
  | EmptyString => EmptyString
  | String c s' =>
      if special c then String "\" (String c (regexp_QuoteMeta s'))
      else String c (regexp_QuoteMeta s')
  end.

(** The syntax tree of a compiled pattern, after [regexp/syntax]. *)
Inductive Regexp : Type :=
| OpEmptyMatch
| OpLiteral (c : ascii)
| OpAnyCharNotNL
| OpBeginText
| OpEndText
| OpCapture (n : nat) (r : Regexp)
| OpStar (greedy : bool) (r : Regexp)
| OpPlus (greedy : bool) (r : Regexp)
| OpQuest (greedy : bool) (r : Regexp)
| OpConcat (r1 r2 : Regexp)
| OpAlternate (r1 r2 : Regexp).

(** The parser of [regexp/syntax] keeps a stack: the concatenation and the
    alternatives being read, below them those of each group still open. *)
Record frame : Type := mkFrame {
  f_cap : option nat;        (* the group's capture index; None for (?: *)
  f_alts : list Regexp;      (* finished alternatives, last first *)
  f_cat : list Regexp        (* the concatenation being read, last first *)
}.

Record pstate : Type := mkPState {
  p_open : list frame;       (* groups still open, innermost first *)
  p_alts : list Regexp;
  p_cat : list Regexp;
  p_ncap : nat;              (* capture groups opened so far *)
  p_lastRepeat : bool        (* the previous token was a repetition *)
}.

Fixpoint concat_of (rs : list Regexp) : Regexp :=
  match rs with
  | [] => OpEmptyMatch
  | [r] => r
  | r :: rs' => OpConcat r (concat_of rs')
  end.

Fixpoint alternate_of (rs : list Regexp) : Regexp :=
  match rs with
  | [] => OpEmptyMatch
  | [r] => r
  | r :: rs' => OpAlternate r (alternate_of rs')
  end.

(** The expression a frame stands for once it is closed. *)
Definition collapse (alts cat : list Regexp) : Regexp :=
  alternate_of (rev (concat_of (rev cat) :: alts)).

Definition push (r : Regexp) (st : pstate) : pstate :=
  mkPState (p_open st) (p_alts st) (r :: p_cat st) (p_ncap st) false.

(** A repetition operator applies to the last expression read; it is
    refused after another repetition and where nothing precedes it. *)
Definition parser_repeat (op : bool -> Regexp -> Regexp) (greedy : bool) (st : pstate)
  : option pstate :=
  if p_lastRepeat st then None
  else match p_cat st with
       | [] => None
       | r :: cat => Some (mkPState (p_open st) (p_alts st) (op greedy r :: cat) (p_ncap st) true)
       end.

(** A left parenthesis: what was being read is set aside, and the group
    is numbered if it captures. *)
Definition open_group (capture : bool) (st : pstate) : pstate :=
  if capture
  then mkPState (mkFrame (Some (S (p_ncap st))) (p_alts st) (p_cat st) :: p_open st)
         [] [] (S (p_ncap st)) false
  else mkPState (mkFrame None (p_alts st) (p_cat st) :: p_open st) [] [] (p_ncap st) false.

Definition isalnum (c : ascii) : bool :=
  let n := nat_of_ascii c in
  (((48 <=? n) && (n <=? 57)) || ((65 <=? n) && (n <=? 90)) || ((97 <=? n) && (n <=? 122)))%nat.

Definition is_ascii (c : ascii) : bool := (nat_of_ascii c <? 128)%nat.

(** One pass over the pattern.  [None]: the pattern does not compile
    (Go's [MustCompile] panics), or it uses syntax beyond the part of RE2
    modelled here and is refused all the same (classes, counted
    repetition, flags, named groups, escape sequences of letters and
    digits, bytes outside ASCII). *)
Fixpoint parse_loop (t : string) (st : pstate) {struct t} : option Regexp :=
  match t with
  | EmptyString =>
      match p_open st with
      | [] => Some (collapse (p_alts st) (p_cat st))
      | _ :: _ => None
      end
  | String "(" (String "?" (String ":" t')) => parse_loop t' (open_group false st)
  | String "(" (String "?" _) => None
  | String "(" t' => parse_loop t' (open_group true st)
  | String ")" t' =>
      match p_open st with
      | [] => None
      | f :: open =>
          let body := collapse (p_alts st) (p_cat st) in
          let group := match f_cap f with Some n => OpCapture n body | None => body end in
          parse_loop t' (mkPState open (f_alts f) (group :: f_cat f) (p_ncap st) false)
      end
  | String "|" t' =>
      parse_loop t'
        (mkPState (p_open st) (concat_of (rev (p_cat st)) :: p_alts st) [] (p_ncap st) false)
  | String "*" (String "?" t') => st' ← parser_repeat OpStar false st; parse_loop t' st'
  | String "*" t' => st' ← parser_repeat OpStar true st; parse_loop t' st'
  | String "+" (String "?" t') => st' ← parser_repeat OpPlus false st; parse_loop t' st'
  | String "+" t' => st' ← parser_repeat OpPlus true st; parse_loop t' st'
  | String "?" (String "?" t') => st' ← parser_repeat OpQuest false st; parse_loop t' st'
  | String "?" t' => st' ← parser_repeat OpQuest true st; parse_loop t' st'
  | String "." t' => parse_loop t' (push OpAnyCharNotNL st)
  | String "^" t' => parse_loop t' (push OpBeginText st)
  | String "$" t' => parse_loop t' (push OpEndText st)
  | String "\" (String c t') =>
      if is_ascii c && negb (isalnum c) then parse_loop t' (push (OpLiteral c) st) else None
  | String "\" EmptyString => None
  | String "[" _ => None
  | String "{" _ => None
  | String c t' => if is_ascii c then parse_loop t' (push (OpLiteral c) st) else None
  end.

(** [regexp.MustCompile(str)]; [None] is the panic (see [parse_loop] for
    the patterns refused although Go compiles them). *)
Definition regexp_MustCompile (str : string) : option Regexp :=
  parse_loop str (mkPState [] [] [] 0 false).

(** Submatch positions: the newest binding of a group comes first. *)
Definition caps : Type := list (nat * (nat * nat)).

(** The matcher tries the alternatives in the order a backtracking search
    prefers them (leftmost first; a greedy operator tries one more
    iteration first, a non-greedy one tries to stop first), which is the
    match Go's [regexp] reports.  [i] is the offset of the input left, [s];
    [k] is what must match after the expression. *)
Definition kont : Type := nat -> string -> caps -> option (nat * caps).

Definition orelse {A} (x : option A) (y : unit -> option A) : option A :=
  match x with
  | Some a => Some a
  | None => y tt
  end.

(** The iterations of a repetition, from offset [i] on.  An iteration
    that consumed input is followed by another or by what comes after the
    repetition, in the order the operator prefers.  An iteration that
    consumed nothing is never followed by another; the first one ends the
    repetition (Go compiles [x*] for an [x] that matches the empty string
    as [(x+)?]), a later one fails, the program being back at an
    instruction it has visited at this offset. *)
Fixpoint star_loop (body : nat -> string -> caps -> kont -> option (nat * caps))
    (greedy : bool) (k : kont) (fuel : nat) (first : bool)
    (i : nat) (s : string) (c : caps)
  : option (nat * caps) :=
  match fuel with
  | O => None
  | S fuel' =>
      body i s c (fun j t c' =>
        if Nat.ltb i j
        then if greedy
             then orelse (star_loop body greedy k fuel' false j t c') (fun _ => k j t c')
             else orelse (k j t c') (fun _ => star_loop body greedy k fuel' false j t c')
        else if first then k j t c' else None)
  end.

Fixpoint rmatch (r : Regexp) (i : nat) (s : string) (c : caps) (k : kont) {struct r}
  : option (nat * caps) :=
  match r with
  | OpEmptyMatch => k i s c
  | OpLiteral a =>
      match s with
      | String b s' => if Ascii.eqb a b then k (S i) s' c else None
      | EmptyString => None
      end
  | OpAnyCharNotNL =>
      match utf8_DecodeRuneInString s with
      | (_, O) => None
      | (r, n) => if N.eqb r 10 then None else k (i + n) (skip_bytes n s) c
      end
  | OpBeginText => if Nat.eqb i 0 then k i s c else None
  | OpEndText =>
      match s with
      | EmptyString => k i s c
      | String _ _ => None
      end
  | OpCapture n r' => rmatch r' i s c (fun j t c' => k j t ((n, (i, j)) :: c'))
  | OpStar g r' =>
      let iterate := fun _ : unit =>
        star_loop (rmatch r') g k (S (String.length s)) true i s c in
      if g then orelse (iterate tt) (fun _ => k i s c)
      else orelse (k i s c) iterate
  | OpPlus g r' => star_loop (rmatch r') g k (S (String.length s)) true i s c
  | OpQuest g r' =>
      if g then orelse (rmatch r' i s c k) (fun _ => k i s c)
      else orelse (k i s c) (fun _ => rmatch r' i s c k)
  | OpConcat r1 r2 => rmatch r1 i s c (fun j t c' => rmatch r2 j t c' k)
  | OpAlternate r1 r2 => orelse (rmatch r1 i s c k) (fun _ => rmatch r2 i s c k)
  end.

(** The leftmost match: the first offset, rune after rune, from which
    the pattern matches.  [skip] counts the bytes left of the rune being
    stepped over.  The result is (start, end, submatch positions). *)
Fixpoint search (re : Regexp) (i : nat) (s : string) (skip : nat)
  : option (nat * nat * caps) :=
  match skip with
  | S skip' =>
      match s with
      | EmptyString => None
      | String _ s' => search re (S i) s' skip'
      end
  | O =>
      match rmatch re i s [] (fun j _ c => Some (j, c)) with
      | Some (j, c) => Some (i, j, c)
      | None =>
          match s with
          | EmptyString => None
          | String _ s' => search re (S i) s' (Nat.pred (snd (utf8_DecodeRuneInString s)))
          end
      end
  end.

(** [re.NumSubexp()] *)
Fixpoint NumSubexp (r : Regexp) : nat :=
  match r with
  | OpCapture n r' => Nat.max n (NumSubexp r')
  | OpStar _ r' | OpPlus _ r' | OpQuest _ r' => NumSubexp r'
  | OpConcat r1 r2 | OpAlternate r1 r2 => Nat.max (NumSubexp r1) (NumSubexp r2)
  | _ => 0
  end.

Fixpoint cap_lookup (n : nat) (c : caps) : option (nat * nat) :=
  match c with
  | [] => None
  | (m, span) :: c' => if Nat.eqb n m then Some span else cap_lookup n c'
  end.

Definition slice (s : string) (span : nat * nat) : string :=
  String.substring (fst span) (snd span - fst span) s.

(** [re.MatchString(s)] *)
Definition MatchString (re : Regexp) (s : string) : bool :=
  match search re 0 s 0 with
  | Some _ => true
  | None => false
  end.

(** [re.FindStringSubmatch(s)]: [None] is Go's [nil]; otherwise the text of
    the leftmost match followed by the text of each group, the empty string
    for a group that took no part in the match. *)
Definition FindStringSubmatch (re : Regexp) (s : string) : option (list string) :=
  match search re 0 s 0 with
  | None => None
  | Some (i, j, c) =>
      Some (slice s (i, j) ::
            map (fun n => match cap_lookup n c with
                          | Some span => slice s span
                          | None => EmptyString
                          end) (seq 1 (NumSubexp re)))
  end.

(** ** Package [path/filepath] (Unix: the separator is [/]) *)

Definition Separator : ascii := "/"%char.

Fixpoint strip_trailing_separators (path : string) : string :=
  match path with
  | EmptyString => EmptyString
  | String c path' =>
      match strip_trailing_separators path' with
      | EmptyString => if Ascii.eqb c Separator then EmptyString else String c EmptyString
      | t => String c t
      end
  end.

(** What follows the last separator of [path] ([path] itself without one). *)
Fixpoint last_element (path : string) : string :=
  match path with
  | EmptyString => EmptyString
  | String c path' =>
      if strings_Contains path' (String Separator EmptyString) then last_element path'
      else if Ascii.eqb c Separator then path'
      else path
  end.

(** [filepath.Base(path)]: the last element of the path, trailing
    separators removed first; ["."] for the empty path, ["/"] for a path of
    separators only. *)
Definition filepath_Base (path : string) : string :=
  match path with
  | EmptyString => "."
  | _ =>
      match last_element (strip_trailing_separators path) with
      | EmptyString => String Separator EmptyString
      | base => base
      end
  end.

Fixpoint skip_stars (pattern : string) : string :=
  match pattern with
  | String "*" pattern' => skip_stars pattern'
  | _ => pattern
  end.

(** The chunk up to the next [*] that stands outside a class, and the rest. *)
Fixpoint scan_chunk (pattern : string) (inrange : bool) : string * string :=
  match pattern with
  | EmptyString => (EmptyString, EmptyString)
  | String "\" (String c pattern') =>
      let '(chunk, rest) := scan_chunk pattern' inrange in
      (String "\" (String c chunk), rest)
  | String "[" pattern' =>
      let '(chunk, rest) := scan_chunk pattern' true in (String "[" chunk, rest)
  | String "]" pattern' =>
      let '(chunk, rest) := scan_chunk pattern' false in (String "]" chunk, rest)
  | String "*" pattern' =>
      if inrange
      then let '(chunk, rest) := scan_chunk pattern' inrange in (String "*" chunk, rest)
      else (EmptyString, pattern)
  | String c pattern' =>
      let '(chunk, rest) := scan_chunk pattern' inrange in (String c chunk, rest)
  end.

(** [scanChunk(pattern)]: (star, chunk, rest). *)
Definition scanChunk (pattern : string) : bool * string * string :=
  let star := match pattern with String "*" _ => true | _ => false end in
  let '(chunk, rest) := scan_chunk (skip_stars pattern) false in
  (star, chunk, rest).

(** [getEsc(chunk)]: the possibly escaped rune a range starts or ends
    with, and the chunk after it; [None] is [ErrBadPattern]. *)
Definition getEsc (chunk : string) : option (N * string) :=
  match chunk with
  | EmptyString => None
  | String "-" _ => None
  | String "]" _ => None
  | _ =>
      chunk1 ← match chunk with
                | String "\" EmptyString => None
                | String "\" chunk1 => Some chunk1
                | _ => Some chunk
                end;
      let '(r, n) := utf8_DecodeRuneInString chunk1 in
      if N.eqb r RuneError && Nat.eqb n 1 then None
      else match skip_bytes n chunk1 with
           | EmptyString => None
           | nchunk => Some (r, nchunk)
           end
  end.

(** The ranges of a class, up to its closing bracket: whether [r] is in one
    of them, and the chunk after the class.  [None] is [ErrBadPattern].
    Every round consumes a byte of the chunk, so [length chunk] rounds
    suffice. *)
Fixpoint class_ranges (fuel : nat) (chunk : string) (r : N) (matched : bool) (nrange : nat)
  : option (bool * string) :=
  match fuel with
  | O => None
  | S fuel' =>
      match chunk, nrange with
      | String "]" chunk', S _ => Some (matched, chunk')
      | _, _ =>
          '(lo, chunk1) ← getEsc chunk;
          '(hi, chunk2) ← match chunk1 with
                           | String "-" chunk1' => getEsc chunk1'
                           | _ => Some (lo, chunk1)
                           end;
          class_ranges fuel' chunk2 r (matched || (N.leb lo r && N.leb r hi)) (S nrange)
      end
  end.

(** The three outcomes of [matchChunk]: [("", false, err)],
    [("", false, nil)] and [(rest, true, nil)]. *)
Inductive chunk_result : Type :=
| ChunkErr
| ChunkNo
| ChunkOk (rest : string).

(** [matchChunk(chunk, s)].  Once the match has failed the loop goes on
    over the chunk, checking its syntax only. *)
Fixpoint matchChunk_loop (fuel : nat) (chunk s : string) (failed : bool) : chunk_result :=
  match fuel with
  | O => if failed then ChunkNo else ChunkOk s
  | S fuel' =>
      match chunk with
      | EmptyString => if failed then ChunkNo else ChunkOk s
      | String c chunk' =>
          let failed := failed || match s with EmptyString => true | _ => false end in
          match c with
          | "["%char =>
              let '(r, s') := if failed then (0%N, s)
                              else let '(r, n) := utf8_DecodeRuneInString s in
                                   (r, skip_bytes n s) in
              let '(negated, chunk1) := match chunk' with
                                        | String "^" chunk1 => (true, chunk1)
                                        | _ => (false, chunk')
                                        end in
              match class_ranges (S (String.length chunk1)) chunk1 r false 0 with
              | None => ChunkErr
              | Some (matched, chunk2) =>
                  matchChunk_loop fuel' chunk2 s' (failed || Bool.eqb matched negated)
              end
          | "?"%char =>
              match failed, s with
              | false, String b _ =>
                  matchChunk_loop fuel' chunk'
                    (skip_bytes (snd (utf8_DecodeRuneInString s)) s) (Ascii.eqb b Separator)
              | _, _ => matchChunk_loop fuel' chunk' s failed
              end
          | "\"%char =>
              match chunk' with
              | EmptyString => ChunkErr
              | String e chunk1 =>
                  match failed, s with
                  | false, String b s' => matchChunk_loop fuel' chunk1 s' (negb (Ascii.eqb e b))
                  | _, _ => matchChunk_loop fuel' chunk1 s failed
                  end
              end
          | _ =>
              match failed, s with
              | false, String b s' => matchChunk_loop fuel' chunk' s' (negb (Ascii.eqb c b))
              | _, _ => matchChunk_loop fuel' chunk' s failed
              end
          end
      end
  end.

Definition matchChunk (chunk s : string) : chunk_result :=
  matchChunk_loop (String.length chunk) chunk s false.

(** After a star: the chunk is tried at every later offset of the name, up
    to the first separator. *)
Inductive skip_result : Type :=
| SkipErr
| SkipNone
| SkipTo (rest : string).

Fixpoint star_skip (chunk pattern name : string) : skip_result :=
  match name with
  | EmptyString => SkipNone
  | String c name' =>
      if Ascii.eqb c Separator then SkipNone
      else match matchChunk chunk name' with
           | ChunkOk t =>
               match pattern, t with
               | EmptyString, String _ _ => star_skip chunk pattern name'
               | _, _ => SkipTo t
               end
           | ChunkErr => SkipErr
           | ChunkNo => star_skip chunk pattern name'
           end
  end.

(** Before [Match] answers "no match" it checks the syntax of the chunks
    it has not read. *)
Fixpoint rest_well_formed (fuel : nat) (pattern : string) : bool :=
  match fuel with
  | O => true
  | S fuel' =>
      match pattern with
      | EmptyString => true
      | _ =>
          let '(_, chunk, pattern') := scanChunk pattern in
          match matchChunk chunk EmptyString with
          | ChunkErr => false
          | _ => rest_well_formed fuel' pattern'
          end
      end
  end.

(** [filepath.Match(pattern, name)]: (matched, err).  Every round takes a
    chunk off the pattern, so [length pattern] rounds suffice. *)
Fixpoint Match_loop (fuel : nat) (pattern name : string) : bool * option error :=
  match fuel with
  | O => (match name with EmptyString => true | _ => false end, None)
  | S fuel' =>
      match pattern with
      | EmptyString => (match name with EmptyString => true | _ => false end, None)
      | _ =>
          let '(star, chunk, pattern') := scanChunk pattern in
          match star, chunk with
          | true, EmptyString =>
              (negb (strings_Contains name (String Separator EmptyString)), None)
          | _, _ =>
              let no_match :=
                if rest_well_formed (String.length pattern') pattern'
                then (false, None) else (false, Some filepath_ErrBadPattern) in
              let after_star :=
                if star
                then match star_skip chunk pattern' name with
                     | SkipTo t => Match_loop fuel' pattern' t
                     | SkipErr => (false, Some filepath_ErrBadPattern)
                     | SkipNone => no_match
                     end
                else no_match in
              match matchChunk chunk name with
              | ChunkErr => (false, Some filepath_ErrBadPattern)
              | ChunkNo => after_star
              | ChunkOk t =>
                  match t, pattern' with
                  | String _ _, EmptyString => after_star
                  | _, _ => Match_loop fuel' pattern' t
                  end
              end
          end
      end
  end.

Definition filepath_Match (pattern name : string) : bool * option error :=
  Match_loop (String.length pattern) pattern name.

(** ** Package [stow]: the storage gateway *)

(** An [io.ReadCloser] as the results of its successive [Read] calls: the
    bytes read and the error returned with them.  Once the list is
    exhausted every [Read] returns no bytes and [io.EOF]. *)
Definition Reader : Type := list (string * option error).

(** [stow.Item] *)
Record Item : Type := mkItem {
  Item_ID : string;
  Item_Size : result Z;
  Item_Open : result Reader
}.

(** What [stow.Walk] hands to its [WalkFunc]: an item visited, or the
    problem met while paging ([fn(item, nil)] and [fn(nil, err)]). *)
Inductive visit : Type :=
| Visited (item : Item)
| Problem (err : error).

(** [stow.Container]: its items by id, and what a traversal of all its
    pages meets. *)
Record Container : Type := mkContainer {
  Container_Item : string -> result Item;
  Container_Items : list visit
}.

(** [stow.Location] *)
Record Location : Type := mkLocation {
  Location_Container : string -> result Container
}.

(** [stow.Config], as the [stow.ConfigMap] the client is built with. *)
Definition Config_Config (config : gmap string string) (name : string) : string * bool :=
  match config !! name with
  | Some val => (val, true)
  | None => (EmptyString, false)
  end.

(** A [stow.WalkFunc] that updates the variables its closure captured,
    of type [V]. *)
Definition WalkFunc (V : Type) : Type := visit -> V -> option error * V.

(** [stow.Walk(container, prefix, pageSize, fn)]: [fn] is called on every
    visit in turn; the walk stops at the first error [fn] returns. *)
Fixpoint walk_visits {V : Type} (visits : list visit) (fn : WalkFunc V) (v : V)
  : option error * V :=
  match visits with
  | [] => (None, v)
  | x :: visits' =>
      match fn x v with
      | (Some err, v') => (Some err, v')
      | (None, v') => walk_visits visits' fn v'
      end
  end.

Definition stow_Walk {V : Type} (container : Container) (prefix : string) (pageSize : Z)
    (fn : WalkFunc V) (v : V) : option error * V :=
  walk_visits (Container_Items container) fn v.

Definition stow_NoPrefix : string := EmptyString.

(** ** Package [io] and [os] *)

(** An [*os.File] open for writing: the bytes written so far, and how many
    more the device accepts ([None]: no limit). *)
Record File : Type := mkFile {
  file_data : string;
  file_room : option nat
}.

Fixpoint take_bytes (n : nat) (b : string) : string :=
  match n, b with
  | S n', String c b' => String c (take_bytes n' b')
  | _, _ => EmptyString
  end.

(** [f.Write(b)]: (n, err) and the file afterwards.  A write the device
    has no room for is cut short and reports the error. *)
Definition File_Write (f : File) (b : string) : nat * option error * File :=
  match file_room f with
  | None => (String.length b, None, mkFile (file_data f +:+ b) None)
  | Some room =>
      if Nat.leb (String.length b) room
      then (String.length b, None,
            mkFile (file_data f +:+ b) (Some (room - String.length b)))
      else (room, Some (foreign "write: no space left on device"),
            mkFile (file_data f +:+ take_bytes room b) (Some 0))
  end.

(** ** Package [progress] *)

(** Modelled from the spec: the package [github.com/pivotal-cf/om/progress]
    is not among the sources.  Its bar is the "bytes-total/bytes-so-far
    interface" of the spec: the proxy reader "reports cumulative bytes
    read" to it, and [Finish] finalizes it ("mark 100%/closed"). *)
Record Bar : Type := mkBar {
  bar_total : Z;
  bar_current : Z;
  bar_started : bool;
  bar_finished : bool
}.

Definition progress_NewBar : Bar := mkBar 0 0 false false.

Definition Bar_SetTotal64 (bar : Bar) (size : Z) : Bar :=
  mkBar size (bar_current bar) (bar_started bar) (bar_finished bar).

Definition Bar_Start (bar : Bar) : Bar :=
  mkBar (bar_total bar) (bar_current bar) true (bar_finished bar).

Definition Bar_Finish (bar : Bar) : Bar :=
  mkBar (bar_total bar) (bar_current bar) (bar_started bar) true.

(** What a [Read] of [n] bytes through the proxy reader reports. *)
Definition Bar_Add (bar : Bar) (n : nat) : Bar :=
  mkBar (bar_total bar) (bar_current bar + Z.of_nat n) (bar_started bar) (bar_finished bar).

(** What a download acts on besides the bar: the destination file and
    what was written to the client's [progressWriter]. *)
Record world : Type := mkWorld {
  w_file : File;
  w_output : list string
}.

(** [wrappedBlobReader.Read(buf)] of the proxy reader [NewProxyReader]
    returns: the next result of the blob's reader, its byte count added
    to the bar. *)
Definition proxy_Read (src : Reader) (bar : Bar) : string * option error * Reader * Bar :=
  match src with
  | [] => (EmptyString, Some io_EOF, [], Bar_Add bar 0)
  | (buf, er) :: src' => (buf, er, src', Bar_Add bar (String.length buf))
  end.

(** [io.Copy(dst, src)] with the proxy reader as [src]: (written, err),
    the file and the bar afterwards.  The loop reads until [io.EOF] or an
    error; a read that brought bytes is written out first. *)
Fixpoint io_Copy (dst : File) (src : Reader) (bar : Bar) (written : Z)
  : Z * option error * File * Bar :=
  match src with
  | [] =>
      let '(_, _, _, bar') := proxy_Read [] bar in
      (written, None, dst, bar')
  | rd :: src' =>
      let '(buf, er, _, bar') := proxy_Read (rd :: src') bar in
      let nr := String.length buf in
      let '(nw, ew, dst') :=
        if Nat.ltb 0 nr then File_Write dst buf else (0, None, dst) in
      let written' := (written + Z.of_nat nw)%Z in
      match ew with
      | Some e => (written', Some e, dst', bar')
      | None =>
          if negb (Nat.eqb nr nw) then (written', Some io_ErrShortWrite, dst', bar')
          else match er with
               | Some io_EOF => (written', None, dst', bar')
               | Some e => (written', Some e, dst', bar')
               | None => io_Copy dst' src' bar' written'
               end
      end
  end.

(** ** The client *)

(** [Stower]: the gateway the client is given. *)
Record Stower : Type := mkStower {
  Stower_Dial : string -> gmap string string -> result Location;
  Stower_Walk : Container -> string -> Z -> WalkFunc (list string) -> list string
                -> option error * list string
}.

(** The client.  Its [progressWriter] is a sink: what is written to it
    is kept in the [world]. *)
Record S3Client : Type := mkS3Client {
  stower : Stower;
  bucket : string;
  Config : gmap string string;
  path : string
}.

Record FileArtifact : Type := mkFileArtifact { Name : string }.

Definition InvalidEndpointErrorMessageTemplate : string :=
  "Could not reach provided endpoint: '%s': %s".

(** The error both [listFiles] and [initializeBlobReader] return when
    [location.Container] failed with [err]. *)
Definition containerError (s : S3Client) (err : error) : error :=
  let '(endpoint, _) := Config_Config (Config s) "endpoint" in
  if negb (String.eqb endpoint EmptyString)
  then errors_New (fmt_Sprintf InvalidEndpointErrorMessageTemplate [endpoint; Error err])
  else err.

(** The closure [listFiles] passes to [Walk]; [paths] is the variable it
    captures. *)
Definition collectPaths : WalkFunc (list string) :=
  fun x paths =>
    match x with
    | Problem err => (Some err, paths)
    | Visited item => (None, (paths ++ [Item_ID item])%list)
    end.

Definition listFiles (s : S3Client) : result (list string) :=
  match Stower_Dial (stower s) "s3" (Config s) with
  | Panic => Panic
  | Err err => Err err
  | Ok location =>
      match Location_Container location (bucket s) with
      | Panic => Panic
      | Err err => Err (containerError s err)
      | Ok container =>
          match Stower_Walk (stower s) container stow_NoPrefix 100 collectPaths [] with
          | (Some err, _) => Err err
          | (None, paths) =>
              if Nat.eqb (length paths) 0
              then Err (fmt_Errorf "bucket contains no files" [])
              else Ok paths
          end
      end
  end.

(** The loop of [GetAllProductVersions] over the listed files.  [None]:
    [match[1]] is out of range (the pattern has no group). *)
Fixpoint collectVersions (productFileCompiledRegex : Regexp) (files : list string)
    (versions : list string) (versionFound : gmap string bool)
  : option (list string * gmap string bool) :=
  match files with
  | [] => Some (versions, versionFound)
  | fileName :: files' =>
      match FindStringSubmatch productFileCompiledRegex fileName with
      | None => collectVersions productFileCompiledRegex files' versions versionFound
      | Some match_ =>
          match match_ !! 1 with
          | None => None
          | Some version =>
              if negb (default false (versionFound !! version))
              then collectVersions productFileCompiledRegex files'
                     (versions ++ [version])%list (<[version := true]> versionFound)
              else collectVersions productFileCompiledRegex files' versions versionFound
          end
      end
  end.

(** The pattern of the listing: the version is the first group. *)
Definition productFilePattern (s3 : S3Client) (slug : string) : string :=
  fmt_Sprintf "^/?%s/?\[%s,(.*?)\]"
    [regexp_QuoteMeta (strings_Trim (path s3) "/"); slug].

Definition GetAllProductVersions (s3 : S3Client) (slug : string) : result (list string) :=
  match listFiles s3 with
  | Panic => Panic
  | Err err => Err err
  | Ok files =>
      match regexp_MustCompile (productFilePattern s3 slug) with
      | None => Panic
      | Some productFileCompiledRegex =>
          match collectVersions productFileCompiledRegex files [] ∅ with
          | None => Panic
          | Some (versions, _) =>
              if Nat.eqb (length versions) 0
              then Err (fmt_Errorf "no files matching pivnet-product-slug %s found" [slug])
              else Ok versions
          end
      end
  end.

(** The pattern of the lookup: slug and version between the brackets. *)
Definition validFilePattern (s3 : S3Client) (slug version : string) : string :=
  fmt_Sprintf "^/?%s/?\[%s,%s\]"
    [regexp_QuoteMeta (strings_Trim (path s3) "/"); slug; regexp_QuoteMeta version].

(** The first loop of [GetLatestProductFile]. *)
Fixpoint collectPrefixed (validFile : Regexp) (files : list string)
    (prefixedFilepaths : list string) : list string :=
  match files with
  | [] => prefixedFilepaths
  | f :: files' =>
      if MatchString validFile f
      then collectPrefixed validFile files' (prefixedFilepaths ++ [f])%list
      else collectPrefixed validFile files' prefixedFilepaths
  end.

(** A call of [filepath.Match]: its pattern and the name it is tried on. *)
Definition globCall : Type := (string * string)%type.

(** The second loop of [GetLatestProductFile]: the matched paths, and the
    calls of [filepath.Match] made on the way.  The error of a call is
    dropped ([matched, _ := ...]). *)
Fixpoint collectGlobMatched (glob : string) (prefixedFilepaths : list string)
    (globMatchedFilepaths : list string) (calls : list globCall)
  : list string * list globCall :=
  match prefixedFilepaths with
  | [] => (globMatchedFilepaths, calls)
  | f :: rest =>
      let '(matched, _) := filepath_Match glob (filepath_Base f) in
      let calls' := (calls ++ [(glob, filepath_Base f)])%list in
      if matched
      then collectGlobMatched glob rest (globMatchedFilepaths ++ [f])%list calls'
      else collectGlobMatched glob rest globMatchedFilepaths calls'
  end.

Definition ambiguousFormat : string :=
  "the glob '%s' matches multiple files. Write your glob to match exactly one of the following:"
  +:+ String LF "  %s".

Definition joinSeparator : string := String LF "  ".

(** [GetLatestProductFile]: its result, and the calls of [filepath.Match]
    it made. *)
Definition GetLatestProductFile (s3 : S3Client) (slug version glob : string)
  : result FileArtifact * list globCall :=
  match listFiles s3 with
  | Panic => (Panic, [])
  | Err err => (Err err, [])
  | Ok files =>
      match regexp_MustCompile (validFilePattern s3 slug version) with
      | None => (Panic, [])
      | Some validFile =>
          let prefixedFilepaths := collectPrefixed validFile files [] in
          if Nat.eqb (length prefixedFilepaths) 0
          then (Err (fmt_Errorf "no product files with expected prefix [%s,%s] found. Please ensure the file you're trying to download was initially persisted from Pivotal Network net using an appropriately configured download-product command" [slug; version]), [])
          else
            let '(globMatchedFilepaths, calls) :=
              collectGlobMatched glob prefixedFilepaths [] [] in
            if Nat.ltb 1 (length globMatchedFilepaths)
            then (Err (fmt_Errorf ambiguousFormat
                         [glob; strings_Join globMatchedFilepaths joinSeparator]), calls)
            else if Nat.eqb (length globMatchedFilepaths) 0
            then (Err (fmt_Errorf "the glob '%s' matches no file" [glob]), calls)
            else match globMatchedFilepaths !! 0 with
                 | Some f => (Ok (mkFileArtifact f), calls)
                 | None => (Panic, calls)
                 end
      end
  end.

Definition initializeBlobReader (s : S3Client) (filename : string) : result (Reader * Z) :=
  match Stower_Dial (stower s) "s3" (Config s) with
  | Panic => Panic
  | Err err => Err err
  | Ok location =>
      match Location_Container location (bucket s) with
      | Panic => Panic
      | Err err => Err (containerError s err)
      | Ok container =>
          match Container_Item container filename with
          | Panic => Panic
          | Err err => Err err
          | Ok item =>
              match Item_Size item with
              | Panic => Panic
              | Err err => Err err
              | Ok fileSize =>
                  match Item_Open item with
                  | Panic => Panic
                  | Err err => Err err
                  | Ok blobToRead => Ok (blobToRead, fileSize)
                  end
              end
          end
      end
  end.

(** [startProgressBar(size, item)]: the bar, set up and started, and the
    notice written to the progress writer before it.  The proxy reader it
    returns is [item] read through [proxy_Read] on that bar. *)
Definition startProgressBar (size : Z) (item : Reader) (output : list string)
  : Bar * Reader * list string :=
  let progressBar := Bar_SetTotal64 progress_NewBar size in
  (Bar_Start progressBar, item, (output ++ ["Downloading product from s3..."])%list).

(** [streamBufferToFile(destinationFile, wrappedBlobReader)]: the error
    of [io.Copy], the file and the bar afterwards. *)
Definition streamBufferToFile (destinationFile : File) (wrappedBlobReader : Reader)
    (bar : Bar) : option error * File * Bar :=
  let '(_, err, file', bar') := io_Copy destinationFile wrappedBlobReader bar 0 in
  (err, file', bar').

(** [DownloadProductToFile(fa, destinationFile)]: the error returned, the
    world afterwards, and the progress bar as the call left it ([None]: no
    bar was made).  The deferred [progressBar.Finish()] runs on every
    return that follows the [defer] statement. *)
Definition DownloadProductToFile (s3 : S3Client) (fa : FileArtifact) (w : world)
  : result unit * world * option Bar :=
  match initializeBlobReader s3 (Name fa) with
  | Panic => (Panic, w, None)
  | Err err => (Err err, w, None)
  | Ok (blobReader, size) =>
      let '(progressBar, wrappedBlobReader, output) :=
        startProgressBar size blobReader (w_output w) in
      let '(err, file', progressBar') :=
        streamBufferToFile (w_file w) wrappedBlobReader progressBar in
      let finished := Bar_Finish progressBar' in
      match err with
      | Some e => (Err e, mkWorld file' output, Some finished)
      | None => (Ok tt, mkWorld file' output, Some finished)
      end
  end.

(** [DownloadProductStemcell(fa)] *)
Definition DownloadProductStemcell (s3 : S3Client) (fa : FileArtifact) : result unit :=
  Err (errors_New "downloading stemcells for s3 is not supported at this time").

(** ** Notions the statements use *)

(** [msg] carries [s]: [s] stands somewhere in [msg]. *)
Definition carries (msg s : string) : Prop := exists a b, msg = a +:+ s +:+ b.


(** The version token the listing pattern extracts from a key. *)
Definition versionOf (re : Regexp) (key : string) : option string :=
  match FindStringSubmatch re key with
  | Some match_ => match_ !! 1
  | None => None
  end.

(** The keys with the exact (slug, version) bracketed prefix. *)
Definition prefixMatching (validFile : Regexp) (keys : list string) : list string :=
  List.filter (MatchString validFile) keys.

(** Whether the base filename of a key matches the glob. *)
Definition globMatches (glob key : string) : bool :=
  fst (filepath_Match glob (filepath_Base key)).

Definition globMatching (glob : string) (keys : list string) : list string :=
  List.filter (globMatches glob) keys.


(** The bytes a reader delivers before [io.EOF]; [None] when a [Read]
    fails first. *)
Fixpoint streamBytes (src : Reader) : option string :=
  match src with
  | [] => Some EmptyString
  | (buf, None) :: src' =>
      match streamBytes src' with
      | Some bytes => Some (buf +:+ bytes)
      | None => None
      end
  | (buf, Some io_EOF) :: _ => Some buf
  | (_, Some _) :: _ => None
  end.

(** Whether the file accepts [n] more bytes. *)
Definition hasRoom (f : File) (n : nat) : Prop :=
  match file_room f with
  | None => True
  | Some room => n <= room
  end.

(** ** An in-memory gateway *)

(** A blob of the in-memory bucket: its key and its content, read in one
    piece. *)
Definition memItem (id content : string) : Item :=
  mkItem id (Ok (Z.of_nat (String.length content))) (Ok [(content, Some io_EOF)]).

Fixpoint memLookup (items : list Item) (id : string) : result Item :=
  match items with
  | [] => Err (foreign "not found")
  | item :: items' => if String.eqb (Item_ID item) id then Ok item else memLookup items' id
  end.

Definition memContainer (items : list Item) : Container :=
  mkContainer (memLookup items) (map Visited items).

(** A gateway whose location holds one bucket, [name], and walks it with
    [stow.Walk]. *)
Definition memStower (name : string) (items : list Item) : Stower :=
  mkStower
    (fun _ _ => Ok (mkLocation (fun n =>
       if String.eqb n name then Ok (memContainer items)
       else Err (foreign "NoSuchBucket: The specified bucket does not exist"))))
    (fun container prefix pageSize fn v => stow_Walk container prefix pageSize fn v).

Definition memClient (bucketName pathPrefix : string) (items : list Item) : S3Client :=
  mkS3Client (memStower bucketName items) bucketName ∅ pathPrefix.

(** The bucket of the spec's example. *)
Definition releases : list Item :=
  [ memItem "rel/[db,1.2.0]linux.tgz" "linux-1.2.0";
    memItem "rel/[db,1.2.0]windows.tgz" "windows-1.2.0";
    memItem "rel/[db,2.0.0]linux.tgz" "linux-2.0.0" ].

Definition releaseKeys : list string := map Item_ID releases.

Definition releaseClient : S3Client := memClient "releases" "rel" releases.


(** A client whose endpoint is overridden, asking for a bucket the
    location does not have. *)
Definition strayClient (endpoint : option string) : S3Client :=
  mkS3Client (memStower "releases" releases) "missing"
    (match endpoint with
     | Some e => {[ "endpoint" := e ]}
     | None => ∅
     end) "rel".

(** A bucket whose key carries another slug than the one asked for. *)
Definition otherClient : S3Client :=
  memClient "releases" "rel" [memItem "rel/[abc,1.0]x.tgz" "x"].

(** A blob whose reader fails after its first piece. *)
Definition brokenClient : S3Client :=
  memClient "releases" "rel"
    [mkItem "rel/[db,1.2.0]linux.tgz" (Ok 11%Z)
       (Ok [("linux", None); (EmptyString, Some (foreign "connection reset by peer"))])].

Definition emptyFile : File := mkFile EmptyString None.

(** A file on a device with room for four more bytes. *)
Definition smallFile : File := mkFile EmptyString (Some 4).

(** The lookup pattern of the example, compiled. *)
Definition releaseValidFile : Regexp :=
  Eval vm_compute in
    default OpEmptyMatch (regexp_MustCompile (validFilePattern releaseClient "db" "1.2.0")).


(** The loop of [GetAllProductVersions] read on its list alone: the
    version of each key in turn is appended unless the list has it. *)
Fixpoint appendNew (re : Regexp) (versions files : list string) : list string :=
  match files with
  | [] => versions
  | key :: files' =>
      match versionOf re key with
      | Some version =>
          if bool_decide (version ∈ versions) then appendNew re versions files'
          else appendNew re (versions ++ [version])%list files'
      | None => appendNew re versions files'
      end
  end.

(** [versionFound] holds exactly the versions of the list. *)
Definition foundAgrees (versionFound : gmap string bool) (versions : list string) : Prop :=
  forall v, default false (versionFound !! v) = true <-> v ∈ versions.

(** ** The naming convention, read literally *)

(** Whether every byte of [s] is ASCII. *)
Fixpoint ascii_only (s : string) : bool :=
  match s with
  | EmptyString => true
  | String c s' => is_ascii c && ascii_only s'
  end.

(** A text that is its own pattern: ASCII, and none of the bytes
    [QuoteMeta] escapes. *)
Fixpoint plain (s : string) : bool :=
  match s with
  | EmptyString => true
  | String c s' => is_ascii c && negb (special c) && plain s'
  end.

(** The key follows the convention [<prefix>/[<slug>,<version>]<rest>] for
    the trimmed prefix, the slashes before and after the prefix being
    optional. *)
Definition bracketed (pathPrefix slug version key : string) : Prop :=
  exists a b rest,
    (a = EmptyString \/ a = "/") /\ (b = EmptyString \/ b = "/") /\
    key = a +:+ strings_Trim pathPrefix "/" +:+ b +:+
          "[" +:+ slug +:+ "," +:+ version +:+ "]" +:+ rest.

(** The pattern of a text that stands for itself, byte by byte. *)
Fixpoint literals (s : string) : list Regexp :=
  match s with
  | EmptyString => []
  | String c s' => OpLiteral c :: literals s'
  end.

(** The parser after it read the bytes of [s] as literals. *)
Fixpoint push_literals (s : string) (st : pstate) : pstate :=
  match s with
  | EmptyString => st
  | String c s' => push_literals s' (push (OpLiteral c) st)
  end.

(** [s] without its prefix [x]; [None] when [s] does not start with [x]. *)
Fixpoint after_prefix (x s : string) : option string :=
  match x, s with
  | EmptyString, _ => Some s
  | String a x', String b s' => if Ascii.eqb a b then after_prefix x' s' else None
  | String _ _, EmptyString => None
  end.

(** The text a key must begin with after the prefix: the bracketed slug
    and version. *)
Definition bracket (slug version : string) : string :=
  String "[" (slug +:+ String "," (version +:+ "]")).

(** The pattern of a lookup whose prefix, slug and version stand for
    themselves. *)
Definition literalPattern (pathPrefix slug version : string) : Regexp :=
  concat_of (OpBeginText :: OpQuest true (OpLiteral "/") ::
    literals pathPrefix ++ OpQuest true (OpLiteral "/") :: literals (bracket slug version)).

(** The bytes a reader delivers up to and with the first [Read] that fails
    with an error other than [io.EOF], and that error; [None] when the
    stream ends first. *)
Fixpoint streamFailure (src : Reader) : option (string * error) :=
  match src with
  | [] => None
  | (buf, None) :: src' =>
      match streamFailure src' with
      | Some (bytes, e) => Some (buf +:+ bytes, e)
      | None => None
      end
  | (_, Some io_EOF) :: _ => None
  | (buf, Some e) :: _ => Some (buf, e)
  end.

(** A version token as the listing pattern takes it: no closing bracket
    and no line feed among its bytes. *)
Fixpoint token (v : string) : bool :=
  match v with
  | EmptyString => true
  | String c v' => negb (Ascii.eqb "]" c) && negb (Ascii.eqb LF c) && token v'
  end.

(** The text before the first closing bracket, and the text after it;
    [None] when a line feed or the end of the text comes first. *)
Fixpoint until_bracket (t : string) : option (string * string) :=
  match t with
  | EmptyString => None
  | String c t' =>
      if Ascii.eqb "]" c then Some (EmptyString, t')
      else if Ascii.eqb LF c then None
      else match until_bracket t' with
           | Some (v, rest) => Some (String c v, rest)
           | None => None
           end
  end.

(** The pattern of a listing whose prefix and slug stand for themselves:
    the version is what the group takes. *)
Definition listingPattern (pathPrefix slug : string) : Regexp :=
  concat_of (OpBeginText :: OpQuest true (OpLiteral "/") ::
    literals pathPrefix ++ OpQuest true (OpLiteral "/") ::
    literals (String "[" (slug +:+ ",")) ++
    [OpCapture 1 (OpStar false OpAnyCharNotNL); OpLiteral "]"]).

(** The tag of the listing: the bracket, the slug and the comma. *)
Definition listingTag (slug : string) : string := String "[" (slug +:+ ",").

(** A number with a bit set at position four or above. *)
Definition big (x : N) : Prop := exists m, (4 <= m)%N /\ N.testbit x m = true.

(** ** Building the client *)

(** [strconv.FormatBool(b)] *)
Definition strconv_FormatBool (b : bool) : string :=
  if b then "true" else "false".

(** [strings.TrimSpace(s)] for text whose white space is ASCII: the
    leading and trailing bytes tab, line feed, vertical tab, form feed,
    carriage return and space are removed. *)
Definition asciiSpace : string :=
  String "009" (String "010" (String "011" (String "012" (String "013" " ")))).

Definition strings_TrimSpace (s : string) : string := strings_Trim s asciiSpace.

(** The configuration of the client. *)
Record S3Configuration : Type := mkS3Configuration {
  Bucket : string;            (* validate:"required" *)
  AccessKeyID : string;       (* validate:"required" *)
  SecretAccessKey : string;   (* validate:"required" *)
  RegionName : string;        (* validate:"required" *)
  Endpoint : string;
  DisableSSL : bool;
  EnableV2Signing : bool;
  Path : string
}.

(** Package [validator]: the error of one field, with its namespace, its
    name and the tag that failed. *)
Record fieldError : Type := mkFieldError {
  fe_ns : string;
  fe_field : string;
  fe_tag : string
}.

Definition fieldErrMsg : string :=
  "Key: '%s' Error:Field validation for '%s' failed on the '%s' tag".

(** [fe.Error()] *)
Definition fieldError_Error (fe : fieldError) : string :=
  fmt_Sprintf fieldErrMsg [fe_ns fe; fe_field fe; fe_tag fe].

(** What [ValidationErrors.Error] writes to its buffer: every message
    followed by a line feed. *)
Fixpoint ValidationErrors_buffer (ve : list fieldError) : string :=
  match ve with
  | [] => EmptyString
  | fe :: ve' => fieldError_Error fe +:+ String LF EmptyString +:+ ValidationErrors_buffer ve'
  end.

(** [ve.Error()] *)
Definition ValidationErrors_Error (ve : list fieldError) : string :=
  strings_TrimSpace (ValidationErrors_buffer ve).

(** The tag [required] on a string field: the value is not the zero
    value of its type. *)
Definition hasValue (value : string) : bool := negb (String.eqb value EmptyString).

(** The fields of [S3Configuration] that carry [validate:"required"], in
    the order of the struct, each with its value. *)
Definition requiredFields (config : S3Configuration) : list (string * string) :=
  [ ("Bucket", Bucket config);
    ("AccessKeyID", AccessKeyID config);
    ("SecretAccessKey", SecretAccessKey config);
    ("RegionName", RegionName config) ].

(** The field errors of a configuration: one for every required field
    without a value, in the order of the fields. *)
Fixpoint fieldErrors (fields : list (string * string)) : list fieldError :=
  match fields with
  | [] => []
  | (name, value) :: fields' =>
      if hasValue value then fieldErrors fields'
      else mkFieldError ("S3Configuration." +:+ name) name "required" :: fieldErrors fields'
  end.

(** [validate.Struct(config)] for a [S3Configuration]: [None] is [nil],
    otherwise the [ValidationErrors], an error of the validator. *)
Definition validate_Struct (config : S3Configuration) : option error :=
  match fieldErrors (requiredFields config) with
  | [] => None
  | ve => Some (foreign (ValidationErrors_Error ve))
  end.

(** The keys of the configuration of package [stow/s3]. *)
Definition s3_ConfigAccessKeyID : string := "access_key_id".
Definition s3_ConfigSecretKey : string := "secret_key".
Definition s3_ConfigRegion : string := "region".
Definition s3_ConfigEndpoint : string := "endpoint".
Definition s3_ConfigDisableSSL : string := "disable_ssl".
Definition s3_ConfigV2Signing : string := "v2_signing".

(** [NewS3Client(stower, config, progressWriter)].  The progress writer
    is the sink kept in the [world] of a download. *)
Definition NewS3Client (stower : Stower) (config : S3Configuration) : result S3Client :=
  match validate_Struct config with
  | Some err => Err err
  | None =>
      let disableSSL := strconv_FormatBool (DisableSSL config) in
      let enableV2Signing := strconv_FormatBool (EnableV2Signing config) in
      let stowConfig : gmap string string :=
        list_to_map
          [ (s3_ConfigAccessKeyID, AccessKeyID config);
            (s3_ConfigSecretKey, SecretAccessKey config);
            (s3_ConfigRegion, RegionName config);
            (s3_ConfigEndpoint, Endpoint config);
            (s3_ConfigDisableSSL, disableSSL);
            (s3_ConfigV2Signing, enableV2Signing) ] in
      Ok (mkS3Client stower (Bucket config) stowConfig (Path config))
  end.

(** A configuration for the bucket of the example. *)
Definition releaseConfiguration (bucketName endpoint : string) : S3Configuration :=
  mkS3Configuration bucketName "AKIAEXAMPLE" "secret" "us-east-1" endpoint false false "rel".

(** A bucket whose walk meets a problem after its three items, with one
    more item on the page after the problem. *)
Definition interruptedContainer : Container :=
  mkContainer (memLookup releases)
    (map Visited releases ++
     [Problem (foreign "RequestTimeout"); Visited (memItem "rel/[db,3.0.0]linux.tgz" "x")])%list.

Definition interruptedClient : S3Client :=
  mkS3Client
    (mkStower (fun _ _ => Ok (mkLocation (fun _ => Ok interruptedContainer)))
       (fun container prefix pageSize fn v => stow_Walk container prefix pageSize fn v))
    "releases" ∅ "rel".

(** Whether a text is made of slashes only. *)
Fixpoint slashes (s : string) : bool :=
  match s with
  | EmptyString => true
  | String c s' => Ascii.eqb c "/" && slashes s'
  end.

(** The bytes a reader hands over before it stops: those of every [Read]
    up to and with the first that returns an error, [io.EOF] or another. *)
Fixpoint delivered (src : Reader) : string :=
  match src with
  | [] => EmptyString
  | (buf, None) :: src' => buf +:+ delivered src'
  | (buf, Some _) :: _ => buf
  end.

(** The lookup pattern of the example for version 2.0.0, compiled. *)
Definition latestValidFile : Regexp :=
  Eval vm_compute in
    default OpEmptyMatch (regexp_MustCompile (validFilePattern releaseClient "db" "2.0.0")).

(** * Properties *)

(** ** Strings *)

Lemma string_app_nil_r (s : string) : s +:+ EmptyString = s.
Proof. induction s as [|c s IH]; [reflexivity|]. cbv [String.append] in *. fold String.append in *. by rewrite IH. Qed.

Lemma string_app_assoc (a b c : string) : (a +:+ b) +:+ c = a +:+ (b +:+ c).
Proof.
  induction a as [|x a IH]; [reflexivity|].
  change (String x ((a +:+ b) +:+ c) = String x (a +:+ (b +:+ c))). by rewrite IH.
Qed.

Lemma string_app_cons (x : ascii) (a b : string) : String x a +:+ b = String x (a +:+ b).
Proof. reflexivity. Qed.

Lemma string_app_nil_l (s : string) : EmptyString +:+ s = s.
Proof. reflexivity. Qed.

Lemma string_length_app (a b : string) :
  String.length (a +:+ b) = String.length a + String.length b.
Proof.
  induction a as [|x a IH]; [reflexivity|].
  rewrite string_app_cons. simpl. by rewrite IH.
Qed.


Lemma carries_self (s : string) : carries s s.
Proof. exists EmptyString, EmptyString. by rewrite string_app_nil_l, string_app_nil_r. Qed.

Lemma carries_app_l (a msg s : string) : carries msg s -> carries (a +:+ msg) s.
Proof.
  intros (x & y & ->). exists (a +:+ x), y. by rewrite string_app_assoc.
Qed.

Lemma carries_app_r (msg b s : string) : carries msg s -> carries (msg +:+ b) s.
Proof.
  intros (x & y & ->). exists x, (y +:+ b). by rewrite !string_app_assoc.
Qed.

Lemma carries_cons (c : ascii) (msg s : string) : carries msg s -> carries (String c msg) s.
Proof. apply (carries_app_l (String c EmptyString)). Qed.





(** ** The loops of the resolver *)

Lemma collectPrefixed_filter (validFile : Regexp) (files acc : list string) :
  collectPrefixed validFile files acc = (acc ++ prefixMatching validFile files)%list.
Proof.
  revert acc. induction files as [|f files IH]; intros acc; simpl.
  - by rewrite List.app_nil_r.
  - destruct (MatchString validFile f); rewrite IH; [|reflexivity].
    by rewrite <- List.app_assoc.
Qed.

Lemma collectGlobMatched_filter (glob : string) (prefixed acc : list string)
    (calls : list globCall) :
  collectGlobMatched glob prefixed acc calls =
    ((acc ++ globMatching glob prefixed)%list,
     (calls ++ map (fun f => (glob, filepath_Base f)) prefixed)%list).
Proof.
  revert acc calls. induction prefixed as [|f prefixed IH]; intros acc calls; simpl.
  - by rewrite !List.app_nil_r.
  - unfold globMatches.
    destruct (filepath_Match glob (filepath_Base f)) as [matched err]; simpl.
    destruct matched; rewrite IH; rewrite <- !List.app_assoc; reflexivity.
Qed.

(** [GetLatestProductFile] once the listing and the pattern are known: the
    three outcomes by the number of glob matches. *)
Lemma GetLatestProductFile_cases (s3 : S3Client) (slug version glob : string)
    (files : list string) (validFile : Regexp) :
  listFiles s3 = Ok files ->
  regexp_MustCompile (validFilePattern s3 slug version) = Some validFile ->
  let prefixed := prefixMatching validFile files in
  let calls := map (fun f => (glob, filepath_Base f)) prefixed in
  GetLatestProductFile s3 slug version glob =
    match prefixed with
    | [] => (Err (fmt_Errorf "no product files with expected prefix [%s,%s] found. Please ensure the file you're trying to download was initially persisted from Pivotal Network net using an appropriately configured download-product command" [slug; version]), [])
    | _ :: _ =>
        match globMatching glob prefixed with
        | [] => (Err (fmt_Errorf "the glob '%s' matches no file" [glob]), calls)
        | [f] => (Ok (mkFileArtifact f), calls)
        | matched => (Err (fmt_Errorf ambiguousFormat
                             [glob; strings_Join matched joinSeparator]), calls)
        end
    end.
Proof.
  intros Hfiles Hre. cbv zeta. unfold GetLatestProductFile.
  rewrite Hfiles, Hre, collectPrefixed_filter, List.app_nil_l.
  destruct (prefixMatching validFile files) as [|p prefixed] eqn:Hp; [reflexivity|].
  change (Nat.eqb (length (p :: prefixed)) 0) with false. cbv iota.
  rewrite collectGlobMatched_filter, !List.app_nil_l.
  destruct (globMatching glob (p :: prefixed)) as [|f [|g matched]]; reflexivity.
Qed.

(** ** The parser of patterns *)

Local Arguments parser_repeat : simpl never.

Ltac bytes c := destruct c as [[] [] [] [] [] [] [] []].

(** The rounds of the parser, each as one equation. *)
Lemma parse_loop_literal (c : ascii) (t : string) (st : pstate) :
  special c = false ->
  parse_loop (String c t) st =
    if is_ascii c then parse_loop t (push (OpLiteral c) st) else None.
Proof. intros Hs. bytes c; try discriminate Hs; reflexivity. Qed.



Lemma parse_loop_quest (t : string) (st : pstate) :
  parse_loop (String "?" t) st =
    match t with
    | String d t' =>
        if Ascii.eqb d "?" then st' ← parser_repeat OpQuest false st; parse_loop t' st'
        else st' ← parser_repeat OpQuest true st; parse_loop t st'
    | EmptyString => st' ← parser_repeat OpQuest true st; parse_loop t st'
    end.
Proof. destruct t as [|d t]; [reflexivity|]. bytes d; reflexivity. Qed.

Lemma parse_loop_escape (t : string) (st : pstate) :
  parse_loop (String "\" t) st =
    match t with
    | String c t' =>
        if is_ascii c && negb (isalnum c) then parse_loop t' (push (OpLiteral c) st) else None
    | EmptyString => None
    end.
Proof. destruct t; reflexivity. Qed.








Lemma NumSubexp_concat_of (rs : list Regexp) (r : Regexp) :
  r ∈ rs -> NumSubexp r <= NumSubexp (concat_of rs).
Proof.
  induction rs as [|x rs IH]; intros Hin; [by apply elem_of_nil in Hin|].
  destruct rs as [|y rs].
  - apply list_elem_of_singleton in Hin as ->. reflexivity.
  - change (NumSubexp r <= Nat.max (NumSubexp x) (NumSubexp (concat_of (y :: rs)))).
    apply elem_of_cons in Hin as [->|Hin]; [lia|]. specialize (IH Hin). lia.
Qed.





(** ** The syntax of a glob *)

(** Whether a class is well formed, and the chunk after it, do not depend
    on the rune tried. *)
Lemma class_ranges_syntax (fuel : nat) (chunk : string) (r1 r2 : N) (m1 m2 : bool)
    (nrange : nat) :
  snd <$> class_ranges fuel chunk r1 m1 nrange = snd <$> class_ranges fuel chunk r2 m2 nrange.
Proof.
  revert chunk m1 m2 nrange. induction fuel as [|fuel IH]; intros chunk m1 m2 nrange;
    [reflexivity|].
  assert (Hround : forall m r,
    class_ranges (S fuel) chunk r m nrange =
      match chunk, nrange with
      | String "]" chunk', S _ => Some (m, chunk')
      | _, _ =>
          '(lo, chunk1) ← getEsc chunk;
          '(hi, chunk2) ← match chunk1 with
                           | String "-" chunk1' => getEsc chunk1'
                           | _ => Some (lo, chunk1)
                           end;
          class_ranges fuel chunk2 r (m || (N.leb lo r && N.leb r hi)) (S nrange)
      end) by reflexivity.
  rewrite !Hround.
  assert (Hrest : snd <$> ('(lo, chunk1) ← getEsc chunk;
          '(hi, chunk2) ← match chunk1 with
                           | String "-" chunk1' => getEsc chunk1'
                           | _ => Some (lo, chunk1)
                           end;
          class_ranges fuel chunk2 r1 (m1 || (N.leb lo r1 && N.leb r1 hi)) (S nrange))
     = snd <$> ('(lo, chunk1) ← getEsc chunk;
          '(hi, chunk2) ← match chunk1 with
                           | String "-" chunk1' => getEsc chunk1'
                           | _ => Some (lo, chunk1)
                           end;
          class_ranges fuel chunk2 r2 (m2 || (N.leb lo r2 && N.leb r2 hi)) (S nrange))).
  { destruct (getEsc chunk) as [[lo chunk1]|]; [|reflexivity]. simpl.
    destruct (match chunk1 with
              | String "-" chunk1' => getEsc chunk1'
              | _ => Some (lo, chunk1)
              end) as [[hi chunk2]|]; [|reflexivity]. simpl. apply IH. }
  destruct chunk as [|c chunk']; [exact Hrest|].
  destruct (ascii_dec c "]") as [->|Hc].
  - destruct nrange; [exact Hrest|reflexivity].
  - destruct c as [[] [] [] [] [] [] [] []]; try exact Hrest. congruence.
Qed.

Lemma matchChunk_loop_literal (fuel : nat) (c : ascii) (chunk s : string) (failed : bool) :
  c <> "["%char -> c <> "?"%char -> c <> "\"%char ->
  matchChunk_loop (S fuel) (String c chunk) s failed =
    let failed' := failed || match s with EmptyString => true | _ => false end in
    match failed', s with
    | false, String b s' => matchChunk_loop fuel chunk s' (negb (Ascii.eqb c b))
    | _, _ => matchChunk_loop fuel chunk s failed'
    end.
Proof.
  intros H1 H2 H3.
  destruct c as [[] [] [] [] [] [] [] []]; try congruence; reflexivity.
Qed.

Lemma matchChunk_loop_class (fuel : nat) (chunk s : string) (failed : bool) :
  matchChunk_loop (S fuel) (String "[" chunk) s failed =
    let failed' := failed || match s with EmptyString => true | _ => false end in
    let '(r, s') := if failed' then (0%N, s)
                    else let '(r, n) := utf8_DecodeRuneInString s in (r, skip_bytes n s) in
    let '(negated, chunk1) := match chunk with
                              | String "^" chunk1 => (true, chunk1)
                              | _ => (false, chunk)
                              end in
    match class_ranges (S (String.length chunk1)) chunk1 r false 0 with
    | None => ChunkErr
    | Some (matched, chunk2) =>
        matchChunk_loop fuel chunk2 s' (failed' || Bool.eqb matched negated)
    end.
Proof. reflexivity. Qed.

(** Whether [matchChunk] reports an error depends on the chunk alone. *)
Lemma matchChunk_loop_syntax (fuel : nat) (chunk s1 s2 : string) (f1 f2 : bool) :
  matchChunk_loop fuel chunk s1 f1 = ChunkErr <-> matchChunk_loop fuel chunk s2 f2 = ChunkErr.
Proof.
  revert chunk s1 s2 f1 f2.
  induction fuel as [|fuel IH]; intros chunk s1 s2 f1 f2.
  - simpl. destruct f1, f2; split; discriminate.
  - destruct chunk as [|c chunk].
    { simpl. destruct f1, f2; split; discriminate. }
    destruct (ascii_dec c "[") as [->|Hclass].
    { rewrite !matchChunk_loop_class. cbv zeta.
      destruct (if f1 || match s1 with EmptyString => true | _ => false end
                then (0%N, s1)
                else let '(r, n) := utf8_DecodeRuneInString s1 in (r, skip_bytes n s1))
        as [r1 s1'].
      destruct (if f2 || match s2 with EmptyString => true | _ => false end
                then (0%N, s2)
                else let '(r, n) := utf8_DecodeRuneInString s2 in (r, skip_bytes n s2))
        as [r2 s2'].
      destruct (match chunk with
                | String "^" chunk1 => (true, chunk1)
                | _ => (false, chunk)
                end) as [negated chunk1].
      pose proof (class_ranges_syntax (S (String.length chunk1)) chunk1 r1 r2 false false 0)
        as Hsyntax.
      destruct (class_ranges (S (String.length chunk1)) chunk1 r1 false 0)
        as [[matched1 chunk2]|];
        destruct (class_ranges (S (String.length chunk1)) chunk1 r2 false 0)
          as [[matched2 chunk2']|]; simpl in Hsyntax; try discriminate Hsyntax.
      - injection Hsyntax as <-. apply IH.
      - tauto. }
    destruct (ascii_dec c "?") as [->|Hquest].
    { simpl.
      destruct (f1 || match s1 with EmptyString => true | _ => false end), s1;
        destruct (f2 || match s2 with EmptyString => true | _ => false end), s2;
        apply IH. }
    destruct (ascii_dec c "\") as [->|Hescape].
    { simpl. destruct chunk as [|e chunk1]; [tauto|].
      destruct (f1 || match s1 with EmptyString => true | _ => false end), s1;
        destruct (f2 || match s2 with EmptyString => true | _ => false end), s2;
        apply IH. }
    rewrite !matchChunk_loop_literal by assumption. cbv zeta.
    destruct (f1 || match s1 with EmptyString => true | _ => false end), s1;
      destruct (f2 || match s2 with EmptyString => true | _ => false end), s2;
      apply IH.
Qed.

Lemma matchChunk_syntax (chunk s : string) :
  matchChunk chunk s = ChunkErr <-> matchChunk chunk EmptyString = ChunkErr.
Proof. apply matchChunk_loop_syntax. Qed.

Lemma scan_chunk_literal (c : ascii) (pattern : string) (inrange : bool) :
  c <> "\"%char -> c <> "["%char -> c <> "]"%char -> c <> "*"%char ->
  scan_chunk (String c pattern) inrange =
    let '(chunk, rest) := scan_chunk pattern inrange in (String c chunk, rest).
Proof.
  intros H1 H2 H3 H4.
  destruct c as [[] [] [] [] [] [] [] []]; try congruence; reflexivity.
Qed.

(** A chunk and the rest make up the pattern scanned; the chunk is empty
    only before a star or at the end. *)
Lemma scan_chunk_length (n : nat) (pattern : string) (inrange : bool) (chunk rest : string) :
  String.length pattern <= n ->
  scan_chunk pattern inrange = (chunk, rest) ->
  String.length chunk + String.length rest = String.length pattern /\
  (chunk = EmptyString ->
   pattern = EmptyString \/ exists pattern', pattern = String "*" pattern').
Proof.
  revert pattern inrange chunk rest.
  induction n as [|n IH]; intros pattern inrange chunk rest Hlen Hscan.
  { destruct pattern; [|simpl in Hlen; lia]. injection Hscan as <- <-. auto. }
  destruct pattern as [|c pattern]; [injection Hscan as <- <-; auto|].
  simpl in Hlen.
  destruct (ascii_dec c "\") as [->|Hescape].
  { destruct pattern as [|d pattern].
    - injection Hscan as <- <-. split; [reflexivity|discriminate].
    - simpl in Hscan, Hlen.
      destruct (scan_chunk pattern inrange) as [chunk' rest'] eqn:Hrec.
      injection Hscan as <- <-.
      destruct (IH pattern inrange chunk' rest' ltac:(lia) Hrec) as [Hsum _].
      split; [simpl; lia|discriminate]. }
  destruct (ascii_dec c "[") as [->|Hopen].
  { simpl in Hscan. destruct (scan_chunk pattern true) as [chunk' rest'] eqn:Hrec.
    injection Hscan as <- <-.
    destruct (IH pattern true chunk' rest' ltac:(lia) Hrec) as [Hsum _].
    split; [simpl; lia|discriminate]. }
  destruct (ascii_dec c "]") as [->|Hclose].
  { simpl in Hscan. destruct (scan_chunk pattern false) as [chunk' rest'] eqn:Hrec.
    injection Hscan as <- <-.
    destruct (IH pattern false chunk' rest' ltac:(lia) Hrec) as [Hsum _].
    split; [simpl; lia|discriminate]. }
  destruct (ascii_dec c "*") as [->|Hstar].
  { simpl in Hscan. destruct inrange.
    - destruct (scan_chunk pattern true) as [chunk' rest'] eqn:Hrec.
      injection Hscan as <- <-.
      destruct (IH pattern true chunk' rest' ltac:(lia) Hrec) as [Hsum _].
      split; [simpl; lia|discriminate].
    - injection Hscan as <- <-. split; [reflexivity|eauto]. }
  rewrite scan_chunk_literal in Hscan by assumption.
  destruct (scan_chunk pattern inrange) as [chunk' rest'] eqn:Hrec.
  injection Hscan as <- <-.
  destruct (IH pattern inrange chunk' rest' ltac:(lia) Hrec) as [Hsum _].
  split; [simpl; lia|discriminate].
Qed.

Lemma skip_stars_length (pattern : string) :
  String.length (skip_stars pattern) <= String.length pattern.
Proof.
  induction pattern as [|c pattern IH]; [reflexivity|].
  destruct (ascii_dec c "*") as [->|Hc]; [simpl; lia|].
  destruct c as [[] [] [] [] [] [] [] []]; try congruence; reflexivity.
Qed.

Lemma skip_stars_other (c : ascii) (pattern : string) :
  c <> "*"%char -> skip_stars (String c pattern) = String c pattern.
Proof. intros Hc. destruct c as [[] [] [] [] [] [] [] []]; try congruence; reflexivity. Qed.

Lemma skip_stars_no_star (pattern pattern' : string) :
  skip_stars pattern <> String "*" pattern'.
Proof.
  induction pattern as [|c pattern IH]; [discriminate|].
  destruct (ascii_dec c "*") as [->|Hc]; [exact IH|].
  destruct c as [[] [] [] [] [] [] [] []]; try congruence; simpl; congruence.
Qed.

(** Every round of [Match] takes something off the pattern, and a chunk
    is empty only when nothing follows it. *)
Lemma scanChunk_shorter (pattern : string) (star : bool) (chunk rest : string) :
  pattern <> EmptyString ->
  scanChunk pattern = (star, chunk, rest) ->
  String.length rest < String.length pattern /\
  (chunk = EmptyString -> rest = EmptyString).
Proof.
  intros Hne. unfold scanChunk.
  destruct (scan_chunk (skip_stars pattern) false) as [chunk' rest'] eqn:Hscan.
  intros [= <- <- <-].
  destruct (scan_chunk_length _ _ _ _ _ (le_n _) Hscan) as [Hsum Hempty].
  pose proof (skip_stars_length pattern) as Hskip.
  assert (Hcase : chunk' = EmptyString -> skip_stars pattern = EmptyString).
  { intros Hchunk. destruct (Hempty Hchunk) as [?|[p Hp]]; [done|].
    by apply skip_stars_no_star in Hp. }
  split.
  - destruct chunk' as [|c chunk'].
    + rewrite (Hcase eq_refl) in Hsum. simpl in Hsum.
      destruct pattern; [done|]. simpl. lia.
    + destruct pattern as [|d pattern]; [done|].
      destruct (ascii_dec d "*") as [->|Hd].
      * pose proof (skip_stars_length pattern). simpl in Hsum |- *. lia.
      * rewrite (skip_stars_other d pattern Hd) in Hsum. simpl in Hsum |- *. lia.
  - intros Hchunk. rewrite (Hcase Hchunk) in Hsum. rewrite Hchunk in Hsum. simpl in Hsum.
    destruct rest'; [reflexivity|simpl in Hsum; lia].
Qed.

Lemma rest_well_formed_round (fuel : nat) (c : ascii) (pattern : string) :
  rest_well_formed (S fuel) (String c pattern) =
    let '(_, chunk, pattern') := scanChunk (String c pattern) in
    match matchChunk chunk EmptyString with
    | ChunkErr => false
    | _ => rest_well_formed fuel pattern'
    end.
Proof. reflexivity. Qed.

(** More rounds than the pattern has bytes change nothing. *)
Lemma rest_well_formed_fuel (fuel1 fuel2 : nat) (pattern : string) :
  String.length pattern <= fuel1 -> String.length pattern <= fuel2 ->
  rest_well_formed fuel1 pattern = rest_well_formed fuel2 pattern.
Proof.
  revert fuel2 pattern. induction fuel1 as [|fuel1 IH]; intros fuel2 pattern H1 H2.
  - destruct pattern; [|simpl in H1; lia]. by destruct fuel2.
  - destruct pattern as [|c pattern]; [by destruct fuel2|].
    destruct fuel2 as [|fuel2]; [simpl in H2; lia|].
    rewrite !rest_well_formed_round.
    destruct (scanChunk (String c pattern)) as [[star chunk] pattern'] eqn:Hscan.
    assert (Hne : String c pattern <> EmptyString) by discriminate.
    destruct (scanChunk_shorter _ _ _ _ Hne Hscan) as [Hshort _].
    simpl in H1, H2, Hshort.
    destruct (matchChunk chunk EmptyString); [reflexivity|apply IH; lia..].
Qed.

Lemma star_skip_syntax (chunk pattern name : string) :
  matchChunk chunk EmptyString <> ChunkErr -> star_skip chunk pattern name <> SkipErr.
Proof.
  intros Hchunk. induction name as [|c name IH]; [discriminate|]. simpl.
  destruct (Ascii.eqb c Separator); [discriminate|].
  destruct (matchChunk chunk name) as [| |t] eqn:Hm.
  - exfalso. apply Hchunk. by apply (matchChunk_syntax chunk name).
  - exact IH.
  - destruct pattern; [destruct t; [discriminate|exact IH]|discriminate].
Qed.

Lemma Match_loop_round (fuel : nat) (c : ascii) (p name : string) :
  Match_loop (S fuel) (String c p) name =
    let '(star, chunk, pattern') := scanChunk (String c p) in
    match star, chunk with
    | true, EmptyString =>
        (negb (strings_Contains name (String Separator EmptyString)), None)
    | _, _ =>
        let no_match :=
          if rest_well_formed (String.length pattern') pattern'
          then (false, None) else (false, Some filepath_ErrBadPattern) in
        let after_star :=
          if star
          then match star_skip chunk pattern' name with
               | SkipTo t => Match_loop fuel pattern' t
               | SkipErr => (false, Some filepath_ErrBadPattern)
               | SkipNone => no_match
               end
          else no_match in
        match matchChunk chunk name with
        | ChunkErr => (false, Some filepath_ErrBadPattern)
        | ChunkNo => after_star
        | ChunkOk t =>
            match t, pattern' with
            | String _ _, EmptyString => after_star
            | _, _ => Match_loop fuel pattern' t
            end
        end
    end.
Proof. reflexivity. Qed.

(** [Match] reports an error exactly when a chunk of the pattern is not
    well formed, whatever the name. *)
Lemma Match_loop_syntax (fuel : nat) (pattern name : string) :
  String.length pattern <= fuel ->
  snd (Match_loop fuel pattern name) =
    if rest_well_formed fuel pattern then None else Some filepath_ErrBadPattern.
Proof.
  revert pattern name. induction fuel as [|fuel IH]; intros pattern name Hlen.
  { destruct pattern; [reflexivity|simpl in Hlen; lia]. }
  destruct pattern as [|c p]; [reflexivity|].
  rewrite Match_loop_round, rest_well_formed_round.
  destruct (scanChunk (String c p)) as [[star chunk] pattern'] eqn:Hscan.
  assert (Hne : String c p <> EmptyString) by discriminate.
  destruct (scanChunk_shorter _ _ _ _ Hne Hscan) as [Hshort Hempty].
  simpl in Hlen, Hshort.
  assert (Hgeneral :
    snd (let no_match :=
           if rest_well_formed (String.length pattern') pattern'
           then (false, None) else (false, Some filepath_ErrBadPattern) in
         let after_star :=
           if star
           then match star_skip chunk pattern' name with
                | SkipTo t => Match_loop fuel pattern' t
                | SkipErr => (false, Some filepath_ErrBadPattern)
                | SkipNone => no_match
                end
           else no_match in
         match matchChunk chunk name with
         | ChunkErr => (false, Some filepath_ErrBadPattern)
         | ChunkNo => after_star
         | ChunkOk t =>
             match t, pattern' with
             | String _ _, EmptyString => after_star
             | _, _ => Match_loop fuel pattern' t
             end
         end)
    = if match matchChunk chunk EmptyString with
         | ChunkErr => false
         | _ => rest_well_formed fuel pattern'
         end
      then None else Some filepath_ErrBadPattern).
  { cbv zeta.
    assert (Hno : snd (if rest_well_formed (String.length pattern') pattern'
                       then (false, None) else (false, Some filepath_ErrBadPattern))
                  = if rest_well_formed fuel pattern' then None
                    else Some filepath_ErrBadPattern).
    { rewrite (rest_well_formed_fuel (String.length pattern') fuel pattern') by lia.
      by destruct (rest_well_formed fuel pattern'). }
    destruct (matchChunk chunk name) as [| |t] eqn:Hm.
    - apply (matchChunk_syntax chunk name) in Hm. by rewrite Hm.
    - assert (Hok : matchChunk chunk EmptyString <> ChunkErr).
      { intros Herr. apply (matchChunk_syntax chunk name) in Herr. congruence. }
      assert (Hrest : match matchChunk chunk EmptyString with
                      | ChunkErr => false
                      | _ => rest_well_formed fuel pattern'
                      end = rest_well_formed fuel pattern').
      { by destruct (matchChunk chunk EmptyString). }
      rewrite Hrest. destruct star; [|exact Hno].
      pose proof (star_skip_syntax chunk pattern' name Hok) as Hskip.
      destruct (star_skip chunk pattern' name); [done|exact Hno|apply IH; lia].
    - assert (Hok : matchChunk chunk EmptyString <> ChunkErr).
      { intros Herr. apply (matchChunk_syntax chunk name) in Herr. congruence. }
      assert (Hrest : match matchChunk chunk EmptyString with
                      | ChunkErr => false
                      | _ => rest_well_formed fuel pattern'
                      end = rest_well_formed fuel pattern').
      { by destruct (matchChunk chunk EmptyString). }
      rewrite Hrest.
      assert (Hafter : snd (if star
                then match star_skip chunk pattern' name with
                     | SkipTo t => Match_loop fuel pattern' t
                     | SkipErr => (false, Some filepath_ErrBadPattern)
                     | SkipNone =>
                         if rest_well_formed (String.length pattern') pattern'
                         then (false, None) else (false, Some filepath_ErrBadPattern)
                     end
                else if rest_well_formed (String.length pattern') pattern'
                     then (false, None) else (false, Some filepath_ErrBadPattern))
              = if rest_well_formed fuel pattern' then None
                else Some filepath_ErrBadPattern).
      { destruct star; [|exact Hno].
        pose proof (star_skip_syntax chunk pattern' name Hok) as Hskip.
        destruct (star_skip chunk pattern' name); [done|exact Hno|apply IH; lia]. }
      destruct t as [|b t]; [apply IH; lia|].
      destruct pattern'; [exact Hafter|apply IH; lia]. }
  destruct star; [|exact Hgeneral].
  destruct chunk as [|d chunk]; [|exact Hgeneral].
  rewrite (Hempty eq_refl). simpl. by destruct fuel.
Qed.

(** The error [filepath.Match] reports for a pattern is the same for
    every name. *)
Lemma filepath_Match_syntax (pattern name1 name2 : string) :
  snd (filepath_Match pattern name1) = snd (filepath_Match pattern name2).
Proof.
  unfold filepath_Match. by rewrite !Match_loop_syntax.
Qed.





(** ** Resolving one file *)









(** ** Listing the versions *)

Lemma foundAgrees_empty : foundAgrees ∅ [].
Proof.
  intros v. rewrite lookup_empty. simpl. split; [discriminate|].
  intros H. by apply elem_of_nil in H.
Qed.

Lemma foundAgrees_insert (versionFound : gmap string bool) (versions : list string)
    (version : string) :
  foundAgrees versionFound versions ->
  foundAgrees (<[version := true]> versionFound) (versions ++ [version]).
Proof.
  intros Hagree v. rewrite elem_of_app, list_elem_of_singleton.
  destruct (decide (version = v)) as [->|Hne].
  - rewrite lookup_insert_eq. simpl. tauto.
  - rewrite lookup_insert_ne by done. rewrite (Hagree v). split; [tauto|].
    intros [?|?]; [done|congruence].
Qed.

(** The loop with its set computes what the loop on the list alone does. *)
Lemma collectVersions_appendNew (re : Regexp) (files versions versions' : list string)
    (versionFound versionFound' : gmap string bool) :
  foundAgrees versionFound versions ->
  collectVersions re files versions versionFound = Some (versions', versionFound') ->
  versions' = appendNew re versions files.
Proof.
  revert versions versionFound.
  induction files as [|key files IH]; intros versions versionFound Hagree; simpl.
  - by intros [= <- <-].
  - unfold versionOf.
    destruct (FindStringSubmatch re key) as [match_|]; [|by apply IH].
    destruct (match_ !! 1) as [version|]; [|discriminate].
    specialize (Hagree version) as Hv.
    destruct (default false (versionFound !! version)) eqn:Hfound; simpl.
    + rewrite bool_decide_eq_true_2 by (by apply Hv). by apply IH.
    + rewrite bool_decide_eq_false_2.
      * apply IH. by apply foundAgrees_insert.
      * intros Hin. apply Hv in Hin. discriminate.
Qed.


Lemma appendNew_elem (re : Regexp) (files versions : list string) (v : string) :
  v ∈ appendNew re versions files <->
  (v ∈ versions) \/ exists key, key ∈ files /\ versionOf re key = Some v.
Proof.
  revert versions. induction files as [|key files IH]; intros versions; simpl.
  - split; [tauto|]. intros [?|(key & Hkey & _)]; [done|]. by apply elem_of_nil in Hkey.
  - destruct (versionOf re key) as [version|] eqn:Hversion.
    + case_bool_decide as Hin; rewrite IH.
      * split.
        -- intros [?|(k & Hk & Hv)]; [tauto|]. right. exists k. split; [by right|done].
        -- intros [?|(k & Hk & Hv)]; [tauto|].
           apply elem_of_cons in Hk as [->|Hk]; [|right; eauto].
           left. congruence.
      * rewrite elem_of_app, list_elem_of_singleton. split.
        -- intros [[?| ->]|(k & Hk & Hv)]; [tauto| |].
           ++ right. exists key. split; [by left|done].
           ++ right. exists k. split; [by right|done].
        -- intros [?|(k & Hk & Hv)]; [tauto|].
           apply elem_of_cons in Hk as [->|Hk]; [|right; eauto].
           left. right. congruence.
    + rewrite IH. split.
      * intros [?|(k & Hk & Hv)]; [tauto|]. right. exists k. split; [by right|done].
      * intros [?|(k & Hk & Hv)]; [tauto|].
        apply elem_of_cons in Hk as [->|Hk]; [congruence|right; eauto].
Qed.

Lemma appendNew_NoDup (re : Regexp) (files versions : list string) :
  NoDup versions -> NoDup (appendNew re versions files).
Proof.
  revert versions. induction files as [|key files IH]; intros versions Hnd; simpl; [done|].
  destruct (versionOf re key) as [version|]; [|by apply IH].
  case_bool_decide as Hin; [by apply IH|].
  apply IH, NoDup_app. split; [done|]. split.
  - intros x Hx ->%list_elem_of_singleton. done.
  - apply NoDup_singleton.
Qed.



(** [GetAllProductVersions] once the listing and the pattern are known. *)
Lemma GetAllProductVersions_cases (s3 : S3Client) (slug : string) (files : list string)
    (re : Regexp) :
  listFiles s3 = Ok files ->
  regexp_MustCompile (productFilePattern s3 slug) = Some re ->
  GetAllProductVersions s3 slug =
    match collectVersions re files [] ∅ with
    | None => Panic
    | Some ([], _) =>
        Err (errorString ("no files matching pivnet-product-slug " +:+ slug +:+ " found"))
    | Some (versions, _) => Ok versions
    end.
Proof.
  intros Hfiles Hre. unfold GetAllProductVersions. rewrite Hfiles, Hre.
  destruct (collectVersions re files [] ∅) as [[[|v versions] found]|]; reflexivity.
Qed.

(** A pattern with a group gives every match its first submatch. *)
Lemma FindStringSubmatch_group (re : Regexp) (key : string) (match_ : list string) :
  1 <= NumSubexp re ->
  FindStringSubmatch re key = Some match_ -> is_Some (match_ !! 1).
Proof.
  unfold FindStringSubmatch. intros Hgroup.
  destruct (search re 0 key 0) as [[[i j] c]|]; [|discriminate]. intros [= <-].
  destruct (NumSubexp re) as [|n]; [lia|]. simpl. eauto.
Qed.

(** So the loop of the listing never indexes out of range. *)
Lemma collectVersions_total (re : Regexp) (files versions : list string)
    (versionFound : gmap string bool) :
  1 <= NumSubexp re ->
  is_Some (collectVersions re files versions versionFound).
Proof.
  intros Hgroup. revert versions versionFound.
  induction files as [|key files IH]; intros versions versionFound; simpl; [eauto|].
  destruct (FindStringSubmatch re key) as [match_|] eqn:Hmatch; [|apply IH].
  destruct (FindStringSubmatch_group re key match_ Hgroup Hmatch) as [version ->].
  destruct (negb (default false (versionFound !! version))); apply IH.
Qed.








(** ** The endpoint *)

(** C7. When the container does not resolve, [listFiles] and
    [initializeBlobReader] return the same error: with a non-empty
    endpoint configured, the re-classified one, whose message embeds the
    endpoint and the text of the underlying error; with none, the
    underlying error itself. *)
Theorem container_failure_endpoint (s : S3Client) (location : Location) (err : error)
    (filename : string) :
  Stower_Dial (stower s) "s3" (Config s) = Ok location ->
  Location_Container location (bucket s) = Err err ->
  (forall endpoint,
     Config s !! "endpoint" = Some endpoint -> endpoint <> EmptyString ->
     exists msg,
       listFiles s = Err (errorString msg) /\
       initializeBlobReader s filename = Err (errorString msg) /\
       msg = "Could not reach provided endpoint: '" +:+ endpoint +:+ "': " +:+ Error err /\
       carries msg endpoint /\ carries msg (Error err)) /\
  (Config s !! "endpoint" = None \/ Config s !! "endpoint" = Some EmptyString ->
   listFiles s = Err err /\ initializeBlobReader s filename = Err err).
Proof.
  intros Hdial Hcontainer. unfold listFiles, initializeBlobReader.
  rewrite Hdial, Hcontainer. unfold containerError, Config_Config. split.
  - intros endpoint Hendpoint Hne. rewrite Hendpoint.
    apply String.eqb_neq in Hne. rewrite Hne. simpl negb. cbv iota.
    exists ("Could not reach provided endpoint: '" +:+ endpoint +:+ "': " +:+ Error err).
    assert (Hmsg : fmt_Sprintf InvalidEndpointErrorMessageTemplate [endpoint; Error err]
              = "Could not reach provided endpoint: '" +:+ endpoint +:+ "': " +:+ Error err).
    { unfold InvalidEndpointErrorMessageTemplate. simpl.
      rewrite string_app_nil_r. reflexivity. }
    unfold errors_New. rewrite Hmsg. do 3 (split; [reflexivity|]). split.
    + exists "Could not reach provided endpoint: '", ("': " +:+ Error err). reflexivity.
    + do 3 apply carries_app_l. apply carries_self.
  - intros [Hnone|Hempty]; [rewrite Hnone|rewrite Hempty]; by split.
Qed.

Lemma container_failure_endpoint_witness :
  (exists msg,
     listFiles (strayClient (Some "http://minio:9000")) = Err (errorString msg) /\
     carries msg "http://minio:9000" /\
     carries msg "NoSuchBucket: The specified bucket does not exist") /\
  listFiles (strayClient None)
    = Err (foreign "NoSuchBucket: The specified bucket does not exist").
Proof.
  split.
  - destruct (container_failure_endpoint (strayClient (Some "http://minio:9000"))
                (mkLocation (fun n =>
                   if String.eqb n "releases" then Ok (memContainer releases)
                   else Err (foreign "NoSuchBucket: The specified bucket does not exist")))
                (foreign "NoSuchBucket: The specified bucket does not exist")
                "rel/[db,1.2.0]linux.tgz" eq_refl eq_refl) as [Hset _].
    destruct (Hset "http://minio:9000" eq_refl) as (msg & Hlist & _ & _ & He & Herr);
      [discriminate|].
    exists msg. auto.
  - destruct (container_failure_endpoint (strayClient None)
                (mkLocation (fun n =>
                   if String.eqb n "releases" then Ok (memContainer releases)
                   else Err (foreign "NoSuchBucket: The specified bucket does not exist")))
                (foreign "NoSuchBucket: The specified bucket does not exist")
                "rel/[db,1.2.0]linux.tgz" eq_refl eq_refl) as [_ Hunset].
    apply Hunset. by left.
Defined.

(** ** The download *)

(** The file after [n] more bytes were accepted. *)
Lemma File_Write_room (f : File) (b : string) :
  hasRoom f (String.length b) ->
  File_Write f b =
    (String.length b, None,
     mkFile (file_data f +:+ b)
       (match file_room f with
        | None => None
        | Some room => Some (room - String.length b)
        end)).
Proof.
  unfold hasRoom, File_Write. destruct (file_room f) as [room|]; [|reflexivity].
  intros Hroom. apply Nat.leb_le in Hroom. by rewrite Hroom.
Qed.

(** The copy of a stream that ends in [io.EOF] into a file with room for
    it: every byte is written, in order, and counted by the bar. *)
Lemma io_Copy_stream (src : Reader) (dst : File) (bar : Bar) (written : Z) (bytes : string) :
  streamBytes src = Some bytes ->
  hasRoom dst (String.length bytes) ->
  io_Copy dst src bar written =
    ((written + Z.of_nat (String.length bytes))%Z, None,
     mkFile (file_data dst +:+ bytes)
       (match file_room dst with
        | None => None
        | Some room => Some (room - String.length bytes)
        end),
     Bar_Add bar (String.length bytes)).
Proof.
  revert dst bar written bytes.
  induction src as [|[buf er] src IH]; intros dst bar written bytes Hbytes Hroom.
  - injection Hbytes as <-. simpl. rewrite string_app_nil_r, Z.add_0_r.
    destruct dst as [data [room|]]; simpl; [by rewrite Nat.sub_0_r|reflexivity].
  - assert (Hstep : forall rest : string, bytes = buf +:+ rest ->
              (if Nat.ltb 0 (String.length buf) then File_Write dst buf else (0, None, dst))
              = (String.length buf, None,
                 mkFile (file_data dst +:+ buf)
                   (match file_room dst with
                    | None => None
                    | Some room => Some (room - String.length buf)
                    end))).
    { intros rest ->. rewrite string_length_app in Hroom.
      destruct buf as [|c buf].
      - simpl. rewrite string_app_nil_r.
        destruct dst as [data [room|]]; simpl; [by rewrite Nat.sub_0_r|reflexivity].
      - change (Nat.ltb 0 (String.length (String c buf))) with true. cbv iota.
        apply File_Write_room.
        unfold hasRoom in *. destruct (file_room dst); [lia|done]. }
    simpl in Hbytes. simpl io_Copy.
    destruct er as [e|].
    + destruct e; try discriminate Hbytes. injection Hbytes as <-.
      rewrite (Hstep EmptyString) by (by rewrite string_app_nil_r).
      rewrite Nat.eqb_refl. reflexivity.
    + destruct (streamBytes src) as [rest|] eqn:Hrest; [|discriminate].
      injection Hbytes as <-. rewrite (Hstep rest eq_refl), Nat.eqb_refl. simpl negb. cbv iota.
      rewrite string_length_app in Hroom.
      erewrite IH; [|reflexivity|].
      * rewrite string_length_app, Nat2Z.inj_add, Z.add_assoc. simpl file_data.
        rewrite string_app_assoc. unfold Bar_Add. simpl.
        rewrite Nat2Z.inj_add, Z.add_assoc.
        destruct (file_room dst) as [room|]; simpl; [|reflexivity].
        replace (room - String.length buf - String.length rest)
          with (room - (String.length buf + String.length rest)) by lia.
        reflexivity.
      * unfold hasRoom in *. simpl. destruct (file_room dst); [lia|done].
Qed.


(** C8, as the code has it.  When the blob opens, its stream delivers
    [bytes] up to [io.EOF] and the destination accepts them, the download
    succeeds, the destination ends with exactly those bytes after what it
    held, and the bar's count is their number: the bar's total when the
    size reported upfront was that number. *)
Theorem DownloadProductToFile_copies (s3 : S3Client) (fa : FileArtifact) (w : world)
    (blob : Reader) (size : Z) (bytes : string) :
  initializeBlobReader s3 (Name fa) = Ok (blob, size) ->
  streamBytes blob = Some bytes ->
  hasRoom (w_file w) (String.length bytes) ->
  exists w' bar,
    DownloadProductToFile s3 fa w = (Ok tt, w', Some bar) /\
    file_data (w_file w') = file_data (w_file w) +:+ bytes /\
    bar_current bar = Z.of_nat (String.length bytes) /\
    bar_total bar = size /\
    (size = Z.of_nat (String.length bytes) -> bar_current bar = bar_total bar).
Proof.
  intros Hopen Hbytes Hroom. unfold DownloadProductToFile. rewrite Hopen.
  unfold startProgressBar, streamBufferToFile.
  rewrite (io_Copy_stream blob (w_file w) _ 0 bytes Hbytes Hroom).
  do 2 eexists. split; [reflexivity|]. simpl. split; [reflexivity|].
  split; [reflexivity|]. split; [reflexivity|]. by intros ->.
Qed.

Lemma DownloadProductToFile_copies_witness :
  exists w' bar,
    DownloadProductToFile releaseClient (mkFileArtifact "rel/[db,1.2.0]linux.tgz")
      (mkWorld emptyFile []) = (Ok tt, w', Some bar) /\
    file_data (w_file w') = "linux-1.2.0" /\
    bar_current bar = 11%Z /\ bar_total bar = 11%Z.
Proof.
  destruct (DownloadProductToFile_copies releaseClient
              (mkFileArtifact "rel/[db,1.2.0]linux.tgz") (mkWorld emptyFile [])
              [("linux-1.2.0", Some io_EOF)] 11%Z "linux-1.2.0" eq_refl eq_refl I)
    as (w' & bar & Hres & Hdata & Hcurrent & Htotal & _).
  exists w', bar. auto.
Defined.

(** C8 as stated fails when the destination stops accepting bytes: the
    stream opens and delivers eleven bytes, the file takes four, and the
    download returns the write error. *)
Lemma DownloadProductToFile_full_device_counterexample :
  initializeBlobReader releaseClient "rel/[db,1.2.0]linux.tgz"
    = Ok ([("linux-1.2.0", Some io_EOF)], 11%Z) /\
  streamBytes [("linux-1.2.0", Some io_EOF)] = Some "linux-1.2.0" /\
  exists w' bar,
    DownloadProductToFile releaseClient (mkFileArtifact "rel/[db,1.2.0]linux.tgz")
      (mkWorld smallFile [])
      = (Err (foreign "write: no space left on device"), w', bar) /\
    file_data (w_file w') = "linu" /\
    file_data (w_file w') <> file_data smallFile +:+ "linux-1.2.0".
Proof.
  split; [reflexivity|]. split; [reflexivity|].
  do 2 eexists. split; [reflexivity|]. split; [reflexivity|]. discriminate.
Qed.

(** C9. Once the blob stream is open, [DownloadProductToFile] returns
    with the bar finished, whether the copy succeeded or returned an
    error. *)
Theorem DownloadProductToFile_finishes (s3 : S3Client) (fa : FileArtifact) (w : world)
    (blob : Reader) (size : Z) :
  initializeBlobReader s3 (Name fa) = Ok (blob, size) ->
  exists outcome w' bar,
    DownloadProductToFile s3 fa w = (outcome, w', Some bar) /\
    bar_finished bar = true /\
    (outcome = Ok tt \/ exists e, outcome = Err e).
Proof.
  intros Hopen. unfold DownloadProductToFile. rewrite Hopen.
  unfold startProgressBar, streamBufferToFile.
  destruct (io_Copy (w_file w) blob (Bar_Start (Bar_SetTotal64 progress_NewBar size)) 0)
    as [[[written err] file'] bar'].
  destruct err as [e|]; do 3 eexists; (split; [reflexivity|]); split; eauto.
Qed.

Lemma DownloadProductToFile_finishes_witness :
  exists w' bar,
    DownloadProductToFile brokenClient (mkFileArtifact "rel/[db,1.2.0]linux.tgz")
      (mkWorld emptyFile [])
      = (Err (foreign "connection reset by peer"), w', Some bar) /\
    bar_finished bar = true.
Proof.
  destruct (DownloadProductToFile_finishes brokenClient
              (mkFileArtifact "rel/[db,1.2.0]linux.tgz") (mkWorld emptyFile [])
              [("linux", None); (EmptyString, Some (foreign "connection reset by peer"))]
              11%Z eq_refl)
    as (outcome & w' & bar & Hres & Hfinished & _).
  exists w', bar. split; [|exact Hfinished].
  rewrite Hres. f_equal. f_equal.
  assert (Hfst : fst (fst (DownloadProductToFile brokenClient
                   (mkFileArtifact "rel/[db,1.2.0]linux.tgz") (mkWorld emptyFile [])))
                 = Err (foreign "connection reset by peer")) by reflexivity.
  rewrite Hres in Hfst. exact Hfst.
Defined.

(** ** The slug in the pattern *)

(** C3 fails on the code for the slug, which is put into the pattern as
    it is.  With the slug [a.c] the listing reports a version for a key
    whose slug is [abc], and the lookup returns that key; the slug [(]
    makes [regexp.MustCompile] panic.  The version, which is quoted,
    stands for itself: [1.0] does not match [1x0]. *)
Lemma slug_read_as_pattern :
  listFiles otherClient = Ok ["rel/[abc,1.0]x.tgz"] /\
  GetAllProductVersions otherClient "a.c" = Ok ["1.0"] /\
  fst (GetLatestProductFile otherClient "a.c" "1.0" "*")
    = Ok (mkFileArtifact "rel/[abc,1.0]x.tgz") /\
  GetAllProductVersions otherClient "(" = Panic /\
  (exists e, fst (GetLatestProductFile otherClient "abc" "1x0" "*") = Err e) /\
  fst (GetLatestProductFile otherClient "abc" "1.0" "*")
    = Ok (mkFileArtifact "rel/[abc,1.0]x.tgz").
Proof.
  do 4 (split; [reflexivity|]). split; [eexists|]; reflexivity.
Qed.

Section LiteralPatterns.

Local Arguments parser_repeat : simpl never.
Local Arguments concat_of : simpl never.

(** ** Patterns of quoted text *)

Lemma special_escapable (c : ascii) :
  special c = true -> is_ascii c && negb (isalnum c) = true.
Proof. destruct c as [[] [] [] [] [] [] [] []]; try discriminate; reflexivity. Qed.

(** The parser reads what [QuoteMeta] returns as the literal bytes of the
    text quoted. *)
Lemma parse_loop_quoted (s rest : string) (st : pstate) :
  ascii_only s = true ->
  parse_loop (regexp_QuoteMeta s +:+ rest) st = parse_loop rest (push_literals s st).
Proof.
  revert st. induction s as [|c s IH]; intros st Hascii; [reflexivity|].
  simpl in Hascii. apply andb_true_iff in Hascii as [Hc Hs]. simpl.
  destruct (special c) eqn:Hspecial.
  - rewrite !string_app_cons, parse_loop_escape, (special_escapable c Hspecial). by apply IH.
  - rewrite string_app_cons, (parse_loop_literal c _ st Hspecial), Hc. by apply IH.
Qed.

Lemma parse_loop_plain (s rest : string) (st : pstate) :
  plain s = true ->
  parse_loop (s +:+ rest) st = parse_loop rest (push_literals s st).
Proof.
  revert st. induction s as [|c s IH]; intros st Hplain; [reflexivity|].
  simpl in Hplain. apply andb_true_iff in Hplain as [Hc Hs].
  apply andb_true_iff in Hc as [Hascii Hspecial]. apply negb_true_iff in Hspecial.
  rewrite string_app_cons, (parse_loop_literal c _ st Hspecial), Hascii. by apply IH.
Qed.

Lemma push_literals_state (s : string) (open : list frame) (alts cat : list Regexp)
    (ncap : nat) (lastRepeat : bool) :
  push_literals s (mkPState open alts cat ncap lastRepeat) =
    mkPState open alts (rev (literals s) ++ cat) ncap
      (match s with EmptyString => lastRepeat | _ => false end).
Proof.
  revert cat lastRepeat. induction s as [|c s IH]; intros cat lastRepeat; [reflexivity|].
  simpl. unfold push. simpl. rewrite IH, <- List.app_assoc. simpl. by destruct s.
Qed.

(** What [QuoteMeta] returns does not begin with a question mark, nor
    does it when a slash follows. *)
Lemma quoted_head (s rest : string) (d : ascii) (t : string) :
  regexp_QuoteMeta s +:+ String "/" rest = String d t -> Ascii.eqb d "?" = false.
Proof.
  destruct s as [|c s]; simpl.
  - by intros [= <- _].
  - destruct (special c) eqn:Hspecial; rewrite string_app_cons; intros [= <- _];
      [reflexivity|].
    destruct c as [[] [] [] [] [] [] [] []]; try discriminate Hspecial; reflexivity.
Qed.

Lemma validFilePattern_form (s3 : S3Client) (slug version : string) :
  validFilePattern s3 slug version =
    String "^" (String "/" (String "?" (regexp_QuoteMeta (strings_Trim (path s3) "/") +:+
      String "/" (String "?" (String "\" (String "[" (slug +:+
        String "," (regexp_QuoteMeta version +:+ "\]")))))))).
Proof. reflexivity. Qed.

Lemma literals_app (x y : string) : literals (x +:+ y) = (literals x ++ literals y)%list.
Proof.
  induction x as [|c x IH]; [reflexivity|].
  rewrite string_app_cons. simpl. by rewrite IH.
Qed.

Lemma parse_loop_begin (t : string) (st : pstate) :
  parse_loop (String "^" t) st = parse_loop t (push OpBeginText st).
Proof. reflexivity. Qed.

Lemma parse_loop_slash (t : string) (st : pstate) :
  parse_loop (String "/" t) st = parse_loop t (push (OpLiteral "/") st).
Proof. reflexivity. Qed.

Lemma parse_loop_comma (t : string) (st : pstate) :
  parse_loop (String "," t) st = parse_loop t (push (OpLiteral ",") st).
Proof. reflexivity. Qed.

Lemma parse_loop_bracket (t : string) (st : pstate) :
  parse_loop (String "\" (String "[" t)) st = parse_loop t (push (OpLiteral "[") st).
Proof. reflexivity. Qed.

(** The optional slash before a quoted text. *)
Lemma parse_loop_optional (s rest : string) (st : pstate) :
  parse_loop (String "?" (regexp_QuoteMeta s +:+ String "/" rest)) st =
    st' ← parser_repeat OpQuest true st;
    parse_loop (regexp_QuoteMeta s +:+ String "/" rest) st'.
Proof.
  rewrite parse_loop_quest.
  destruct (regexp_QuoteMeta s +:+ String "/" rest) as [|d t] eqn:Hhead; [reflexivity|].
  by rewrite (quoted_head s rest d t Hhead).
Qed.

(** The pattern of a lookup compiles when the prefix and the version are
    ASCII and the slug is free of metacharacters, and it is the pattern
    that reads all three literally. *)
Lemma validFilePattern_compiles (s3 : S3Client) (slug version : string) :
  ascii_only (strings_Trim (path s3) "/") = true ->
  plain slug = true ->
  ascii_only version = true ->
  regexp_MustCompile (validFilePattern s3 slug version) =
    Some (literalPattern (strings_Trim (path s3) "/") slug version).
Proof.
  intros Hpath Hslug Hversion. rewrite validFilePattern_form.
  set (p := strings_Trim (path s3) "/") in *.
  unfold regexp_MustCompile.
  rewrite parse_loop_begin, parse_loop_slash, parse_loop_optional.
  unfold push at 1 2, parser_repeat; simpl.
  rewrite (parse_loop_quoted p _ _ Hpath), push_literals_state.
  rewrite parse_loop_slash. unfold push at 1; simpl.
  change (parse_loop (String "?" (String "\" ?t)) ?st)
    with (st' ← parser_repeat OpQuest true st; parse_loop (String "\" t) st').
  unfold parser_repeat; simpl.
  unfold push at 1; simpl.
  rewrite (parse_loop_plain slug _ _ Hslug), push_literals_state.
  rewrite parse_loop_comma. unfold push at 1; simpl.
  rewrite (parse_loop_quoted version _ _ Hversion), push_literals_state.
  simpl. unfold collapse, literalPattern, bracket. simpl. do 2 f_equal.
  repeat (progress (rewrite ?List.rev_app_distr, ?List.rev_involutive, ?literals_app,
                      <- ?List.app_assoc; simpl)).
  reflexivity.
Qed.

(** ** Matching a pattern of literals *)

Lemma concat_of_cons (a b : Regexp) (rs : list Regexp) :
  concat_of (a :: b :: rs) = OpConcat a (concat_of (b :: rs)).
Proof. reflexivity. Qed.

Lemma concat_of_cons_app (a b : Regexp) (rs rs' : list Regexp) :
  concat_of (a :: rs ++ b :: rs') = OpConcat a (concat_of (rs ++ b :: rs')).
Proof. by destruct rs. Qed.

Lemma is_Some_orelse {A} (x : option A) (y : unit -> option A) :
  is_Some (orelse x y) <-> is_Some x \/ is_Some (y tt).
Proof.
  destruct x as [a|]; simpl.
  - split; [by left|by intros _].
  - split; [by right|]. intros [H|H]; [by destruct H|exact H].
Qed.

Lemma after_prefix_Some (x s s' : string) :
  after_prefix x s = Some s' <-> s = x +:+ s'.
Proof.
  revert s. induction x as [|a x IH]; intros s.
  - simpl. split; [by intros [= ->]|by intros ->].
  - rewrite string_app_cons. destruct s as [|b s]; simpl; [by split|].
    destruct (Ascii.eqb a b) eqn:Hab.
    + apply Ascii.eqb_eq in Hab as ->. rewrite IH. split; [by intros ->|by intros [= ->]].
    + apply Ascii.eqb_neq in Hab. split; [discriminate|]. intros [= ? _]. by destruct Hab.
Qed.

Lemma after_prefix_app (x s : string) : after_prefix x (x +:+ s) = Some s.
Proof. by apply after_prefix_Some. Qed.

(** Literals in front of an expression take their text off the input. *)
Lemma rmatch_literals (x : string) (r : Regexp) (rs : list Regexp)
    (i : nat) (s : string) (c : caps) (k : kont) :
  rmatch (concat_of (literals x ++ r :: rs)) i s c k =
    match after_prefix x s with
    | Some s' => rmatch (concat_of (r :: rs)) (String.length x + i) s' c k
    | None => None
    end.
Proof.
  revert i s. induction x as [|a x IH]; intros i s; [reflexivity|].
  change (literals (String a x) ++ r :: rs)%list with (OpLiteral a :: literals x ++ r :: rs).
  rewrite concat_of_cons_app. destruct s as [|b s]; [reflexivity|]. simpl.
  destruct (Ascii.eqb a b); [|reflexivity].
  rewrite IH. by replace (String.length x + S i) with (S (String.length x + i)) by lia.
Qed.

(** Literals at the end of a pattern. *)
Lemma rmatch_literals_last (a : ascii) (x : string)
    (i : nat) (s : string) (c : caps) (k : kont) :
  rmatch (concat_of (literals (String a x))) i s c k =
    match after_prefix (String a x) s with
    | Some s' => k (String.length (String a x) + i) s' c
    | None => None
    end.
Proof.
  revert a i s. induction x as [|a' x IH]; intros a i s.
  - destruct s as [|b s]; [reflexivity|]. simpl. by destruct (Ascii.eqb a b).
  - change (literals (String a (String a' x)))
      with (OpLiteral a :: OpLiteral a' :: literals x).
    rewrite concat_of_cons. destruct s as [|b s]; [reflexivity|].
    change (OpLiteral a' :: literals x) with (literals (String a' x)).
    change (rmatch (OpConcat (OpLiteral a) ?r) i (String b s) c k)
      with (if Ascii.eqb a b then rmatch r (S i) s c k else None).
    change (after_prefix (String a ?y) (String b s))
      with (if Ascii.eqb a b then after_prefix y s else None).
    destruct (Ascii.eqb a b); [|reflexivity].
    rewrite IH. simpl String.length.
    by replace (S (String.length x) + S i) with (S (S (String.length x) + i)) by lia.
Qed.

(** An optional slash in front of an expression. *)
Lemma rmatch_optional_slash (r : Regexp) (i : nat) (s : string) (c : caps) (k : kont) :
  is_Some (rmatch (OpConcat (OpQuest true (OpLiteral "/")) r) i s c k) <->
  exists a t, (a = EmptyString \/ a = "/") /\ s = a +:+ t /\
    is_Some (rmatch r (String.length a + i) t c k).
Proof.
  change (rmatch (OpConcat (OpQuest true (OpLiteral "/")) r) i s c k)
    with (orelse (rmatch (OpLiteral "/") i s c (fun j t c' => rmatch r j t c' k))
            (fun _ => rmatch r i s c k)).
  rewrite is_Some_orelse. split.
  - intros [H|H].
    + destruct s as [|b s]; [by destruct H|].
      change (is_Some (if Ascii.eqb "/" b then rmatch r (S i) s c k else None)) in H.
      destruct (Ascii.eqb "/" b) eqn:Hb; [|by destruct H].
      apply Ascii.eqb_eq in Hb as <-. exists "/", s. by split; [right|].
    + exists EmptyString, s. by split; [left|].
  - intros (a & t & [-> | ->] & -> & H); [by right|by left].
Qed.

(** A pattern that begins with [^] matches at the first offset or not at
    all. *)
Lemma search_anchored (r : Regexp) (s : string) (i skip : nat) :
  search (OpConcat OpBeginText r) (S i) s skip = None.
Proof.
  revert i skip. induction s as [|b s IH]; intros i [|skip]; simpl;
    first [reflexivity|apply IH].
Qed.

Lemma MatchString_anchored (r : Regexp) (s : string) :
  MatchString (OpConcat OpBeginText r) s = true <->
  is_Some (rmatch r 0 s [] (fun j _ c => Some (j, c))).
Proof.
  unfold MatchString. destruct s as [|b s]; simpl.
  - destruct (rmatch r 0 EmptyString [] _) as [[j c]|]; split; try done.
    all: by intros [? ?].
  - destruct (rmatch r 0 (String b s) [] _) as [[j c]|]; [by split|].
    rewrite search_anchored. split; [done|]. by intros [? ?].
Qed.

(** The keys the literal pattern matches. *)
Lemma MatchString_literalPattern (p slug version key : string) :
  MatchString (literalPattern p slug version) key = true <->
  exists a b rest,
    (a = EmptyString \/ a = "/") /\ (b = EmptyString \/ b = "/") /\
    key = a +:+ p +:+ b +:+ bracket slug version +:+ rest.
Proof.
  unfold literalPattern. rewrite concat_of_cons, MatchString_anchored.
  rewrite concat_of_cons_app, rmatch_optional_slash.
  unfold bracket at 1.
  split.
  - intros (a & t & Ha & -> & H). rewrite rmatch_literals in H.
    destruct (after_prefix p t) as [t'|] eqn:Hp; [|by destruct H].
    apply after_prefix_Some in Hp as ->.
    change (literals (String ?a ?x)) with (OpLiteral a :: literals x) in H.
    rewrite concat_of_cons in H. apply rmatch_optional_slash in H as (b & u & Hb & -> & H).
    change (OpLiteral ?a :: literals ?x) with (literals (String a x)) in H.
    rewrite rmatch_literals_last in H.
    destruct (after_prefix _ u) as [rest|] eqn:Hu; [|by destruct H].
    apply after_prefix_Some in Hu as ->. by exists a, b, rest.
  - intros (a & b & rest & Ha & Hb & ->).
    exists a, (p +:+ b +:+ bracket slug version +:+ rest). do 2 (split; [done|]).
    rewrite rmatch_literals, after_prefix_app.
    change (literals (String ?a ?x)) with (OpLiteral a :: literals x).
    rewrite concat_of_cons. apply rmatch_optional_slash.
    exists b, (bracket slug version +:+ rest). do 2 (split; [done|]).
    change (OpLiteral ?a :: literals ?x) with (literals (String a x)).
    rewrite rmatch_literals_last. fold (bracket slug version).
    by rewrite after_prefix_app.
Qed.

Lemma bracket_app (slug version rest : string) :
  bracket slug version +:+ rest = "[" +:+ slug +:+ "," +:+ version +:+ "]" +:+ rest.
Proof.
  unfold bracket. rewrite string_app_cons, string_app_assoc, string_app_cons,
    string_app_assoc. reflexivity.
Qed.

Lemma MatchString_bracketed (s3 : S3Client) (slug version key : string) :
  MatchString (literalPattern (strings_Trim (path s3) "/") slug version) key = true <->
  bracketed (path s3) slug version key.
Proof.
  rewrite MatchString_literalPattern. unfold bracketed. by setoid_rewrite bracket_app.
Qed.

(** X1. In a lookup whose (trimmed) path prefix and version are ASCII and
    whose slug is ASCII and free of regex metacharacters, the pattern of
    [GetLatestProductFile] compiles, and it matches exactly the keys that
    begin with the prefix, a slash optional before and after it, followed
    by the bracketed slug and version: prefix, slug and version are read
    byte for byte. *)
Theorem validFile_reads_literally (s3 : S3Client) (slug version : string) :
  ascii_only (strings_Trim (path s3) "/") = true ->
  plain slug = true ->
  ascii_only version = true ->
  exists validFile,
    regexp_MustCompile (validFilePattern s3 slug version) = Some validFile /\
    forall key, MatchString validFile key = true <-> bracketed (path s3) slug version key.
Proof.
  intros Hpath Hslug Hversion. eexists. split; [by apply validFilePattern_compiles|].
  intros key. apply MatchString_bracketed.
Qed.

Lemma validFile_reads_literally_witness :
  exists validFile,
    regexp_MustCompile (validFilePattern releaseClient "db" "1.2.0") = Some validFile /\
    forall key,
      MatchString validFile key = true <-> bracketed (path releaseClient) "db" "1.2.0" key.
Proof. apply validFile_reads_literally; reflexivity. Defined.

End LiteralPatterns.

(** ** The failures that surface *)

(** X3. When keys carry the (slug, version) prefix and the glob matches
    the base filename of none of them, [GetLatestProductFile] fails with
    the error "the glob '...' matches no file", the glob between the
    quotes. *)
Theorem GetLatestProductFile_no_glob_match (s3 : S3Client) (slug version glob : string)
    (files : list string) (validFile : Regexp) :
  listFiles s3 = Ok files ->
  regexp_MustCompile (validFilePattern s3 slug version) = Some validFile ->
  prefixMatching validFile files <> [] ->
  globMatching glob (prefixMatching validFile files) = [] ->
  fst (GetLatestProductFile s3 slug version glob)
    = Err (errorString ("the glob '" +:+ glob +:+ "' matches no file")).
Proof.
  intros Hfiles Hre Hprefixed Hnone.
  rewrite (GetLatestProductFile_cases s3 slug version glob files validFile Hfiles Hre).
  cbv zeta. destruct (prefixMatching validFile files) as [|p prefixed]; [done|].
  rewrite Hnone. simpl. do 2 f_equal.
Qed.

Lemma GetLatestProductFile_no_glob_match_witness :
  fst (GetLatestProductFile releaseClient "db" "1.2.0" "*.zip")
    = Err (errorString "the glob '*.zip' matches no file").
Proof.
  apply (GetLatestProductFile_no_glob_match releaseClient "db" "1.2.0" "*.zip"
           releaseKeys releaseValidFile); [reflexivity|reflexivity|discriminate|reflexivity].
Defined.

(** X4. The failures of the gateway surface unchanged.  A failed [Dial]
    is what the listing, both queries and the download return; an error
    of the walk is what both queries return, and no glob is matched then;
    a key the container does not have, an item without a size and an item
    that does not open make the download return that error.  A download
    that fails before the blob is open leaves the destination and the
    progress output as they were and makes no progress bar. *)
Theorem gateway_failures_surface (s3 : S3Client) (fa : FileArtifact) (w : world)
    (err : error) (slug version glob : string) :
  (Stower_Dial (stower s3) "s3" (Config s3) = Err err ->
   listFiles s3 = Err err /\
   GetAllProductVersions s3 slug = Err err /\
   GetLatestProductFile s3 slug version glob = (Err err, []) /\
   DownloadProductToFile s3 fa w = (Err err, w, None)) /\
  (forall location container,
     Stower_Dial (stower s3) "s3" (Config s3) = Ok location ->
     Location_Container location (bucket s3) = Ok container ->
     (forall collected,
        Stower_Walk (stower s3) container stow_NoPrefix 100 collectPaths []
          = (Some err, collected) ->
        GetAllProductVersions s3 slug = Err err /\
        GetLatestProductFile s3 slug version glob = (Err err, [])) /\
     (Container_Item container (Name fa) = Err err ->
      DownloadProductToFile s3 fa w = (Err err, w, None)) /\
     (forall item,
        Container_Item container (Name fa) = Ok item ->
        Item_Size item = Err err \/ (exists size, Item_Size item = Ok size) /\
                                    Item_Open item = Err err ->
        DownloadProductToFile s3 fa w = (Err err, w, None))).
Proof.
  split.
  - intros Hdial.
    unfold GetAllProductVersions, GetLatestProductFile, DownloadProductToFile,
      initializeBlobReader, listFiles.
    by rewrite Hdial.
  - intros location container Hdial Hcontainer. split; [|split].
    + intros collected Hwalk. unfold GetAllProductVersions, GetLatestProductFile, listFiles.
      by rewrite Hdial, Hcontainer, Hwalk.
    + intros Hitem. unfold DownloadProductToFile, initializeBlobReader.
      by rewrite Hdial, Hcontainer, Hitem.
    + intros item Hitem Hfail. unfold DownloadProductToFile, initializeBlobReader.
      rewrite Hdial, Hcontainer, Hitem.
      destruct Hfail as [->|[[size ->] ->]]; reflexivity.
Qed.



(** What one round of [io.Copy] writes when the file has room. *)
Lemma copy_round_room (dst : File) (buf : string) :
  hasRoom dst (String.length buf) ->
  (if Nat.ltb 0 (String.length buf) then File_Write dst buf else (0, None, dst))
  = (String.length buf, None,
     mkFile (file_data dst +:+ buf)
       (match file_room dst with
        | None => None
        | Some room => Some (room - String.length buf)
        end)).
Proof.
  intros Hroom. destruct buf as [|c buf].
  - simpl. rewrite string_app_nil_r.
    destruct dst as [data [room|]]; simpl; [by rewrite Nat.sub_0_r|reflexivity].
  - change (Nat.ltb 0 (String.length (String c buf))) with true. cbv iota.
    by apply File_Write_room.
Qed.

(** The copy of a stream whose reader fails: the bytes read before and
    with the failure are written, and the reader's error is returned. *)
Lemma io_Copy_failure (src : Reader) (dst : File) (bar : Bar) (written : Z)
    (bytes : string) (e : error) :
  streamFailure src = Some (bytes, e) ->
  hasRoom dst (String.length bytes) ->
  exists n dst' bar',
    io_Copy dst src bar written = (n, Some e, dst', bar') /\
    file_data dst' = file_data dst +:+ bytes.
Proof.
  revert dst bar written bytes.
  induction src as [|[buf er] src IH]; intros dst bar written bytes Hfail Hroom;
    [discriminate|].
  simpl in Hfail. simpl io_Copy. destruct er as [e'|].
  - assert (Hbuf : bytes = buf /\ e' = e /\ e' <> io_EOF)
      by (destruct e'; try discriminate Hfail; by injection Hfail as <- <-).
    destruct Hbuf as (-> & -> & Hne).
    rewrite (copy_round_room dst buf Hroom), Nat.eqb_refl. simpl negb. cbv iota.
    destruct e; try (by destruct Hne); by do 3 eexists.
  - destruct (streamFailure src) as [[rest e']|] eqn:Hrest; [|discriminate].
    injection Hfail as <- <-. rewrite string_length_app in Hroom.
    rewrite copy_round_room, Nat.eqb_refl
      by (unfold hasRoom in *; destruct (file_room dst); [lia|done]).
    simpl negb. cbv iota.
    edestruct (IH (mkFile (file_data dst +:+ buf)
                     (match file_room dst with
                      | None => None
                      | Some room => Some (room - String.length buf)
                      end))
                 (Bar_Add bar (String.length buf))
                 (written + Z.of_nat (String.length buf))%Z rest eq_refl)
      as (n & dst' & bar' & Hcopy & Hdata).
    + unfold hasRoom in *. simpl. destruct (file_room dst); [lia|done].
    + exists n, dst', bar'. split; [exact Hcopy|].
      rewrite Hdata. simpl. by rewrite string_app_assoc.
Qed.

(** X7. When a [Read] of the open blob fails with an error other than
    [io.EOF], [DownloadProductToFile] returns that error, unchanged; the
    destination holds the bytes read until then, and the bar is
    finished. *)
Theorem read_failure_surfaces (s3 : S3Client) (fa : FileArtifact) (w : world)
    (blob : Reader) (size : Z) (bytes : string) (e : error) :
  initializeBlobReader s3 (Name fa) = Ok (blob, size) ->
  streamFailure blob = Some (bytes, e) ->
  hasRoom (w_file w) (String.length bytes) ->
  exists w' bar,
    DownloadProductToFile s3 fa w = (Err e, w', Some bar) /\
    file_data (w_file w') = file_data (w_file w) +:+ bytes /\
    bar_finished bar = true.
Proof.
  intros Hopen Hfail Hroom. unfold DownloadProductToFile. rewrite Hopen.
  unfold startProgressBar, streamBufferToFile.
  destruct (io_Copy_failure blob (w_file w)
              (Bar_Start (Bar_SetTotal64 progress_NewBar size)) 0 bytes e Hfail Hroom)
    as (n & dst' & bar' & -> & Hdata).
  do 2 eexists. split; [reflexivity|]. by split.
Qed.

Lemma read_failure_surfaces_witness :
  exists w' bar,
    DownloadProductToFile brokenClient (mkFileArtifact "rel/[db,1.2.0]linux.tgz")
      (mkWorld emptyFile []) = (Err (foreign "connection reset by peer"), w', Some bar) /\
    file_data (w_file w') = "linux" /\
    bar_finished bar = true.
Proof.
  apply (read_failure_surfaces brokenClient (mkFileArtifact "rel/[db,1.2.0]linux.tgz")
           (mkWorld emptyFile [])
           [("linux", None); (EmptyString, Some (foreign "connection reset by peer"))]
           11%Z "linux" (foreign "connection reset by peer") eq_refl eq_refl I).
Defined.

(** ** The listing pattern, read literally *)

Section ListingPatterns.

Local Arguments parser_repeat : simpl never.
Local Arguments concat_of : simpl never.

Lemma productFilePattern_form (s3 : S3Client) (slug : string) :
  productFilePattern s3 slug =
    String "^" (String "/" (String "?" (regexp_QuoteMeta (strings_Trim (path s3) "/") +:+
      String "/" (String "?" (String "\" (String "[" (slug +:+ ",(.*?)\]"))))))).
Proof. reflexivity. Qed.

Lemma productFilePattern_compiles (s3 : S3Client) (slug : string) :
  ascii_only (strings_Trim (path s3) "/") = true ->
  plain slug = true ->
  regexp_MustCompile (productFilePattern s3 slug) =
    Some (listingPattern (strings_Trim (path s3) "/") slug).
Proof.
  intros Hpath Hslug. rewrite productFilePattern_form.
  set (p := strings_Trim (path s3) "/") in *.
  unfold regexp_MustCompile.
  rewrite parse_loop_begin, parse_loop_slash, parse_loop_optional.
  unfold push at 1 2, parser_repeat; simpl.
  rewrite (parse_loop_quoted p _ _ Hpath), push_literals_state.
  rewrite parse_loop_slash. unfold push at 1; simpl.
  change (parse_loop (String "?" (String "\" ?t)) ?st)
    with (st' ← parser_repeat OpQuest true st; parse_loop (String "\" t) st').
  unfold parser_repeat; simpl.
  unfold push at 1; simpl.
  rewrite (parse_loop_plain slug _ _ Hslug), push_literals_state.
  simpl. unfold parser_repeat, open_group, push. simpl.
  change (collapse [] [OpStar false OpAnyCharNotNL]) with (OpStar false OpAnyCharNotNL).
  unfold collapse, listingPattern. simpl. do 2 f_equal.
  repeat (progress (rewrite ?List.rev_app_distr, ?List.rev_involutive, ?literals_app,
                      <- ?List.app_assoc; simpl)).
  reflexivity.
Qed.


(** ** Runes that are not a line feed *)

Lemma big_lor_l (a b : N) : big a -> big (N.lor a b).
Proof. intros (m & Hm & Hbit). exists m. by rewrite N.lor_spec, Hbit. Qed.

Lemma big_lor_r (a b : N) : big b -> big (N.lor a b).
Proof. intros (m & Hm & Hbit). exists m. by rewrite N.lor_spec, Hbit, orb_true_r. Qed.

Lemma big_shiftl (x k : N) : x <> 0%N -> (4 <= k)%N -> big (N.shiftl x k).
Proof.
  intros Hx Hk. exists (N.log2 x + k)%N. split; [lia|].
  rewrite N.shiftl_spec_high' by lia.
  replace (N.log2 x + k - k)%N with (N.log2 x) by lia.
  apply N.bit_log2. exact Hx.
Qed.

Lemma big_not_LF (x : N) : big x -> N.eqb x 10 = false.
Proof.
  intros (m & Hm & Hbit). apply N.eqb_neq. intros ->.
  rewrite N.bits_above_log2 in Hbit; [discriminate|]. simpl. lia.
Qed.

Lemma byte_val_LF (c : ascii) : N.eqb (byte_val c) 10 = Ascii.eqb LF c.
Proof. bytes c; reflexivity. Qed.

(** A byte above the ASCII range is neither a bracket nor a line feed. *)
Lemma high_free (c : ascii) :
  N.leb 128 (byte_val c) = true ->
  negb (Ascii.eqb "]" c) && negb (Ascii.eqb LF c) = true.
Proof. bytes c; vm_compute; intros H; first [reflexivity|discriminate H]. Qed.

Lemma between_high (lo hi x : N) :
  N.leb 128 lo = true -> between lo hi x = true -> N.leb 128 x = true.
Proof.
  unfold between. intros Hlo Hx. apply andb_true_iff in Hx as [Hx _].
  apply N.leb_le in Hlo, Hx. apply N.leb_le. lia.
Qed.

Lemma continuation_bits (lo hi : N) (c : ascii) :
  N.leb 144 lo = true -> N.leb hi 191 = true -> between lo hi (byte_val c) = true ->
  N.land (byte_val c) 63 <> 0%N.
Proof.
  unfold between. intros Hlo Hhi Hc. apply andb_true_iff in Hc as [Hc1 Hc2].
  apply N.leb_le in Hlo, Hhi, Hc1, Hc2.
  assert (H1 : N.leb 144 (byte_val c) = true) by (apply N.leb_le; lia).
  assert (H2 : N.leb (byte_val c) 191 = true) by (apply N.leb_le; lia).
  clear -H1 H2. revert H1 H2.
  bytes c; vm_compute; intros H1 H2; first [discriminate H1|discriminate H2|discriminate].
Qed.

(** The table of leading bytes. *)
Lemma utf8_first_spec (c0 : ascii) (sz : nat) (lo hi : N) :
  utf8_first (byte_val c0) = Some (sz, (lo, hi)) ->
  N.leb 128 lo = true /\ N.leb hi 191 = true /\
  ((sz = 2 /\ N.land (byte_val c0) 31 <> 0%N) \/
   (sz = 3 /\ (N.land (byte_val c0) 15 <> 0%N \/ N.leb 144 lo = true)) \/
   (sz = 4 /\ (N.land (byte_val c0) 7 <> 0%N \/ N.leb 144 lo = true))).
Proof.
  bytes c0; vm_compute; intros H; try discriminate H;
    injection H as <- <- <-; (split; [reflexivity|]); (split; [reflexivity|]);
    first
      [ left; split; [reflexivity|discriminate]
      | right; left; split; [reflexivity|]; first [left; discriminate|right; reflexivity]
      | right; right; split; [reflexivity|]; first [left; discriminate|right; reflexivity] ].
Qed.

Lemma token_cons (c : ascii) (v : string) :
  token (String c v) = negb (Ascii.eqb "]" c) && negb (Ascii.eqb LF c) && token v.
Proof. reflexivity. Qed.

Lemma token_byte (c : ascii) :
  negb (Ascii.eqb "]" c) && negb (Ascii.eqb LF c) = true -> token (String c EmptyString) = true.
Proof. intros H. rewrite token_cons. by rewrite H. Qed.

(** The rune at a byte that is neither a closing bracket nor a line feed:
    it is no line feed, and the bytes it spans hold neither. *)
Lemma DecodeRune_free (c0 : ascii) (t0 : string) :
  negb (Ascii.eqb "]" c0) && negb (Ascii.eqb LF c0) = true ->
  exists r n pre,
    utf8_DecodeRuneInString (String c0 t0) = (r, S n) /\
    N.eqb r 10 = false /\
    String c0 t0 = pre +:+ skip_bytes (S n) (String c0 t0) /\
    String.length pre = S n /\
    token pre = true.
Proof.
  intros Hfree.
  assert (Hone : forall r, N.eqb r 10 = false ->
            exists r' n pre,
              (r, 1) = (r', S n) /\ N.eqb r' 10 = false /\
              String c0 t0 = pre +:+ skip_bytes (S n) (String c0 t0) /\
              String.length pre = S n /\ token pre = true).
  { intros r Hr. exists r, 0, (String c0 EmptyString).
    repeat split; [exact Hr|by apply token_byte]. }
  unfold utf8_DecodeRuneInString.
  destruct (N.ltb (byte_val c0) 128) eqn:Hascii.
  { apply Hone. rewrite byte_val_LF. apply andb_true_iff in Hfree as [_ H].
    by apply negb_true_iff in H. }
  destruct (utf8_first (byte_val c0)) as [[sz [lo hi]]|] eqn:Hfirst; [|by apply Hone].
  apply utf8_first_spec in Hfirst as (Hlo & Hhi & Hsz).
  destruct (Nat.ltb (String.length (String c0 t0)) sz); [by apply Hone|].
  destruct t0 as [|c1 t1]; [by apply Hone|].
  destruct (between lo hi (byte_val c1)) eqn:H1; [|by apply Hone].
  pose proof (high_free c1 (between_high lo hi _ Hlo H1)) as Hfree1.
  simpl negb. cbv iota.
  destruct Hsz as [[-> Hbits]|[[-> Hbits]|[-> Hbits]]].
  - exists (N.lor (N.shiftl (N.land (byte_val c0) 31) 6) (N.land (byte_val c1) 63)),
      1, (String c0 (String c1 EmptyString)).
    split; [reflexivity|]. split; [|split; [reflexivity|split; [reflexivity|]]].
    + apply big_not_LF, big_lor_l, big_shiftl; [exact Hbits|lia].
    + by rewrite !token_cons, Hfree, Hfree1.
  - change (Nat.leb 3 2) with false. cbv iota.
    destruct t1 as [|c2 t2]; [by apply Hone|].
    destruct (between 128 191 (byte_val c2)) eqn:H2; [|by apply Hone].
    pose proof (high_free c2 (between_high 128 191 _ eq_refl H2)) as Hfree2.
    simpl negb. cbv iota. change (Nat.leb 3 3) with true. cbv iota.
    eexists _, 2, (String c0 (String c1 (String c2 EmptyString))).
    split; [reflexivity|]. split; [|split; [reflexivity|split; [reflexivity|]]].
    + apply big_not_LF. destruct Hbits as [Hbits|Hbits].
      * apply big_lor_l, big_shiftl; [exact Hbits|lia].
      * apply big_lor_r, big_lor_l, big_shiftl; [|lia].
        by apply (continuation_bits lo hi).
    + by rewrite !token_cons, Hfree, Hfree1, Hfree2.
  - change (Nat.leb 4 2) with false. cbv iota.
    destruct t1 as [|c2 t2]; [by apply Hone|].
    destruct (between 128 191 (byte_val c2)) eqn:H2; [|by apply Hone].
    pose proof (high_free c2 (between_high 128 191 _ eq_refl H2)) as Hfree2.
    simpl negb. cbv iota. change (Nat.leb 4 3) with false. cbv iota.
    destruct t2 as [|c3 t3]; [by apply Hone|].
    destruct (between 128 191 (byte_val c3)) eqn:H3; [|by apply Hone].
    pose proof (high_free c3 (between_high 128 191 _ eq_refl H3)) as Hfree3.
    simpl negb. cbv iota.
    eexists _, 3, (String c0 (String c1 (String c2 (String c3 EmptyString)))).
    split; [reflexivity|]. split; [|split; [reflexivity|split; [reflexivity|]]].
    + apply big_not_LF. destruct Hbits as [Hbits|Hbits].
      * apply big_lor_l, big_shiftl; [exact Hbits|lia].
      * apply big_lor_r, big_lor_l, big_shiftl; [|lia].
        by apply (continuation_bits lo hi).
    + by rewrite !token_cons, Hfree, Hfree1, Hfree2, Hfree3.
Qed.

(** ** The version the group takes *)

Lemma until_bracket_cons (c : ascii) (t : string) :
  until_bracket (String c t) =
    if Ascii.eqb "]" c then Some (EmptyString, t)
    else if Ascii.eqb LF c then None
         else match until_bracket t with
              | Some (v, rest) => Some (String c v, rest)
              | None => None
              end.
Proof. reflexivity. Qed.

Lemma until_bracket_token (pre s : string) :
  token pre = true ->
  until_bracket (pre +:+ s) =
    match until_bracket s with
    | Some (v, rest) => Some (pre +:+ v, rest)
    | None => None
    end.
Proof.
  induction pre as [|c pre IH]; intros Hpre.
  - rewrite string_app_nil_l. by destruct (until_bracket s) as [[v rest]|].
  - rewrite token_cons in Hpre. apply andb_true_iff in Hpre as [Hc Hpre].
    apply andb_true_iff in Hc as [Hb Hl]. apply negb_true_iff in Hb, Hl.
    rewrite string_app_cons, until_bracket_cons, Hb, Hl, (IH Hpre).
    by destruct (until_bracket s) as [[v rest]|].
Qed.

Lemma until_bracket_spec (t v rest : string) :
  until_bracket t = Some (v, rest) <-> t = v +:+ String "]" rest /\ token v = true.
Proof.
  revert v. induction t as [|c t IH]; intros v.
  - split; [discriminate|]. intros [H _]. by destruct v.
  - rewrite until_bracket_cons. destruct (Ascii.eqb "]" c) eqn:Hb.
    + apply Ascii.eqb_eq in Hb. subst c. split.
      * by intros [= <- <-].
      * intros [H Hv]. destruct v as [|d v]; [by injection H as ->|].
        rewrite string_app_cons in H. injection H as <- _.
        rewrite token_cons in Hv. discriminate Hv.
    + destruct (Ascii.eqb LF c) eqn:Hl.
      * split; [discriminate|]. intros [H Hv]. destruct v as [|d v].
        -- injection H as -> _. discriminate Hb.
        -- rewrite string_app_cons in H. injection H as <- _.
           rewrite token_cons, Hl in Hv. rewrite andb_false_r in Hv. discriminate Hv.
      * destruct (until_bracket t) as [[v' rest']|] eqn:Ht.
        -- split.
           ++ intros [= <- <-]. destruct (proj1 (IH v') eq_refl) as [-> Hv'].
              split; [reflexivity|]. by rewrite token_cons, Hb, Hl, Hv'.
           ++ intros [H Hv]. destruct v as [|d v].
              ** injection H as -> _. discriminate Hb.
              ** rewrite string_app_cons in H. injection H as <- H.
                 rewrite token_cons in Hv. apply andb_true_iff in Hv as [_ Hv].
                 by pose proof (proj2 (IH v) (conj H Hv)) as [= -> ->].
        -- split; [discriminate|]. intros [H Hv]. destruct v as [|d v].
           ++ injection H as -> _. discriminate Hb.
           ++ rewrite string_app_cons in H. injection H as <- H.
              rewrite token_cons in Hv. apply andb_true_iff in Hv as [_ Hv].
              discriminate (proj2 (IH v) (conj H Hv)).
Qed.

Lemma skip_bytes_length (pre s : string) :
  skip_bytes (String.length pre) (pre +:+ s) = s.
Proof. induction pre as [|c pre IH]; [by destruct s|]. exact IH. Qed.

(** The lazy repetition of any character up to the closing bracket: the
    group spans the text before the first closing bracket. *)
Lemma star_loop_version (fuel : nat) (first : bool) (i0 i : nat) (t : string) (c : caps) :
  String.length t < fuel ->
  let k : kont := fun j t' c' =>
    rmatch (OpLiteral "]") j t' ((1, (i0, j)) :: c') (fun j' _ c'' => Some (j', c'')) in
  orelse (k i t c) (fun _ => star_loop (rmatch OpAnyCharNotNL) false k fuel first i t c) =
  match until_bracket t with
  | Some (v, _) =>
      Some (S (i + String.length v), (1, (i0, i + String.length v)) :: c)
  | None => None
  end.
Proof.
  intros Hfuel k. revert first i t Hfuel.
  induction fuel as [|fuel IH]; intros first i t Hfuel; [lia|].
  destruct t as [|b t].
  - reflexivity.
  - rewrite until_bracket_cons.
    change (k i (String b t) c)
      with (if Ascii.eqb "]" b then Some (S i, (1, (i0, i)) :: c) else None).
    destruct (Ascii.eqb "]" b) eqn:Hb.
    { change (String.length EmptyString) with 0. rewrite Nat.add_0_r. reflexivity. }
    change (orelse None ?f) with (f tt). cbv beta.
    change (star_loop (rmatch OpAnyCharNotNL) false k (S fuel) first i (String b t) c)
      with (match utf8_DecodeRuneInString (String b t) with
            | (_, O) => None
            | (r, n) =>
                if N.eqb r 10 then None
                else (fun j t' c' =>
                        if Nat.ltb i j
                        then orelse (k j t' c')
                               (fun _ => star_loop (rmatch OpAnyCharNotNL) false k fuel
                                           false j t' c')
                        else if first then k j t' c' else None)
                       (i + n) (skip_bytes n (String b t)) c
            end).
    destruct (Ascii.eqb LF b) eqn:Hl.
    { apply Ascii.eqb_eq in Hl. subst b. reflexivity. }
    destruct (DecodeRune_free b t) as (r & n & pre & -> & -> & Hsplit & Hlen & Hpre).
    { by rewrite Hb, Hl. }
    cbv iota beta.
    replace (Nat.ltb i (i + S n)) with true by (symmetry; apply Nat.ltb_lt; lia).
    assert (Hskip : String.length (skip_bytes (S n) (String b t)) < fuel).
    { apply (f_equal String.length) in Hsplit. rewrite string_length_app, Hlen in Hsplit.
      change (String.length (String b t)) with (S (String.length t)) in Hsplit, Hfuel.
      lia. }
    rewrite (IH false _ _ Hskip).
    assert (Htail : match until_bracket t with
                    | Some (v, rest) => Some (String b v, rest)
                    | None => None
                    end
                  = match until_bracket (skip_bytes (S n) (String b t)) with
                    | Some (v, rest) => Some (pre +:+ v, rest)
                    | None => None
                    end).
    { rewrite <- (until_bracket_token pre _ Hpre), <- Hsplit, until_bracket_cons, Hb, Hl.
      reflexivity. }
    rewrite Htail. destruct (until_bracket (skip_bytes (S n) (String b t))) as [[v rest]|];
      [|reflexivity].
    by rewrite string_length_app, Hlen, Nat.add_assoc.
Qed.

(** The group and the bracket that closes it. *)
Lemma rmatch_version (i : nat) (t : string) (c : caps) :
  rmatch (concat_of [OpCapture 1 (OpStar false OpAnyCharNotNL); OpLiteral "]"]) i t c
    (fun j _ c' => Some (j, c')) =
  match until_bracket t with
  | Some (v, _) =>
      Some (S (i + String.length v), (1, (i, i + String.length v)) :: c)
  | None => None
  end.
Proof. apply (star_loop_version (S (String.length t)) true i i t c). lia. Qed.

Lemma orelse_Some {A} (x : option A) (y : unit -> option A) (a : A) :
  orelse x y = Some a -> x = Some a \/ y tt = Some a.
Proof. destruct x; simpl; auto. Qed.

(** What an optional slash in front of an expression leaves to it. *)
Lemma rmatch_optional_slash_result (r : Regexp) (i : nat) (s : string) (c : caps)
    (k : kont) (res : nat * caps) :
  rmatch (OpConcat (OpQuest true (OpLiteral "/")) r) i s c k = Some res ->
  exists a t, (a = EmptyString \/ a = "/") /\ s = a +:+ t /\
    rmatch r (String.length a + i) t c k = Some res.
Proof.
  change (rmatch (OpConcat (OpQuest true (OpLiteral "/")) r) i s c k)
    with (orelse (rmatch (OpLiteral "/") i s c (fun j t c' => rmatch r j t c' k))
            (fun _ => rmatch r i s c k)).
  intros [H|H]%orelse_Some.
  - destruct s as [|b s]; [discriminate H|].
    change (((if Ascii.eqb "/" b then rmatch r (S i) s c k else None)) = Some res) in H.
    destruct (Ascii.eqb "/" b) eqn:Hb; [|discriminate H].
    apply Ascii.eqb_eq in Hb as <-. exists "/", s. by split; [right|].
  - exists EmptyString, s. by split; [left|].
Qed.

(** A key the naming convention's pattern matches begins with the prefix
    between its optional slashes and the text [tag]; what follows is
    left to the rest of the pattern. *)
Lemma rmatch_convention_result (p tag : string) (r : Regexp) (rs : list Regexp)
    (key : string) (c : caps) (k : kont) (res : nat * caps) :
  rmatch (concat_of (OpQuest true (OpLiteral "/") ::
            literals p ++ OpQuest true (OpLiteral "/") :: literals tag ++ r :: rs))
    0 key c k = Some res ->
  exists a b t,
    (a = EmptyString \/ a = "/") /\ (b = EmptyString \/ b = "/") /\
    key = a +:+ p +:+ b +:+ tag +:+ t /\
    rmatch (concat_of (r :: rs))
      (String.length tag + (String.length b + (String.length p + (String.length a + 0))))
      t c k = Some res.
Proof.
  rewrite concat_of_cons_app. intros (a & t & Ha & -> & H)%rmatch_optional_slash_result.
  rewrite rmatch_literals in H.
  destruct (after_prefix p t) as [t'|] eqn:Hp; [|discriminate H].
  apply after_prefix_Some in Hp as ->.
  rewrite concat_of_cons_app in H.
  apply rmatch_optional_slash_result in H as (b & u & Hb & -> & H).
  rewrite rmatch_literals in H.
  destruct (after_prefix tag u) as [t|] eqn:Hu; [|discriminate H].
  apply after_prefix_Some in Hu as ->. by exists a, b, t.
Qed.

Lemma rmatch_convention_matches (p tag : string) (r : Regexp) (rs : list Regexp)
    (a b t : string) (c : caps) (k : kont) :
  (a = EmptyString \/ a = "/") -> (b = EmptyString \/ b = "/") ->
  is_Some (rmatch (concat_of (r :: rs))
      (String.length tag + (String.length b + (String.length p + (String.length a + 0))))
      t c k) ->
  is_Some (rmatch (concat_of (OpQuest true (OpLiteral "/") ::
            literals p ++ OpQuest true (OpLiteral "/") :: literals tag ++ r :: rs))
    0 (a +:+ p +:+ b +:+ tag +:+ t) c k).
Proof.
  intros Ha Hb H. rewrite concat_of_cons_app. apply rmatch_optional_slash.
  exists a, (p +:+ b +:+ tag +:+ t). do 2 (split; [done|]).
  rewrite rmatch_literals, after_prefix_app, concat_of_cons_app.
  apply rmatch_optional_slash. exists b, (tag +:+ t). do 2 (split; [done|]).
  by rewrite rmatch_literals, after_prefix_app.
Qed.

(** ** Slices of a key *)

Lemma substring_skip (x s : string) (n m : nat) :
  String.substring (String.length x + n) m (x +:+ s) = String.substring n m s.
Proof. induction x as [|c x IH]; [reflexivity|]. exact IH. Qed.

Lemma substring_head (v s : string) :
  String.substring 0 (String.length v) (v +:+ s) = v.
Proof.
  induction v as [|c v IH]; [by destruct s|].
  rewrite string_app_cons. simpl. by rewrite IH.
Qed.

(** ** The version of a key *)

Lemma search_anchored_start (r : Regexp) (key : string) :
  search (OpConcat OpBeginText r) 0 key 0 =
    match rmatch r 0 key [] (fun j _ c => Some (j, c)) with
    | Some (j, c) => Some (0, j, c)
    | None => None
    end.
Proof.
  destruct key as [|b key]; simpl.
  - by destruct (rmatch r 0 EmptyString [] _) as [[j c]|].
  - destruct (rmatch r 0 (String b key) [] _) as [[j c]|]; [reflexivity|].
    apply search_anchored.
Qed.

Lemma listingPattern_group (p slug : string) : 1 <= NumSubexp (listingPattern p slug).
Proof.
  apply (NumSubexp_concat_of _ (OpCapture 1 (OpStar false OpAnyCharNotNL))).
  unfold listingPattern. set_solver.
Qed.

(** What the listing pattern finds in a key: the offset and the length
    of the version. *)
Lemma search_listingPattern (p slug key : string) :
  search (listingPattern p slug) 0 key 0 = None \/
  exists a b v rest,
    (a = EmptyString \/ a = "/") /\ (b = EmptyString \/ b = "/") /\
    key = a +:+ p +:+ b +:+ listingTag slug +:+ v +:+ String "]" rest /\
    token v = true /\
    let i := String.length (listingTag slug) +
             (String.length b + (String.length p + (String.length a + 0))) in
    search (listingPattern p slug) 0 key 0
      = Some (0, S (i + String.length v), [(1, (i, i + String.length v))]).
Proof.
  unfold listingPattern. rewrite concat_of_cons, search_anchored_start.
  fold (listingTag slug).
  destruct (rmatch _ 0 key [] _) as [[j c]|] eqn:Hmatch; [right|by left].
  apply rmatch_convention_result in Hmatch as (a & b & t & Ha & Hb & -> & Hmatch).
  rewrite rmatch_version in Hmatch.
  destruct (until_bracket t) as [[v rest]|] eqn:Ht; [|discriminate Hmatch].
  injection Hmatch as <- <-. apply until_bracket_spec in Ht as [-> Hv].
  by exists a, b, v, rest.
Qed.

Lemma versionOf_search (re : Regexp) (key : string) :
  1 <= NumSubexp re ->
  versionOf re key =
    match search re 0 key 0 with
    | Some (_, _, c) =>
        Some (match cap_lookup 1 c with
              | Some span => slice key span
              | None => EmptyString
              end)
    | None => None
    end.
Proof.
  intros Hgroup. unfold versionOf, FindStringSubmatch.
  destruct (search re 0 key 0) as [[[i j] c]|]; [|reflexivity].
  destruct (NumSubexp re) as [|n]; [lia|]. reflexivity.
Qed.

Lemma slice_middle (x v s : string) (i : nat) :
  i = String.length x ->
  slice (x +:+ v +:+ s) (i, i + String.length v) = v.
Proof.
  intros ->. unfold slice, fst, snd.
  replace (String.length x + String.length v - String.length x)
    with (String.length v) by lia.
  rewrite <- (Nat.add_0_r (String.length x)) at 1.
  by rewrite substring_skip, substring_head.
Qed.

(** The version the listing pattern extracts stands in the key between
    the comma of the tag and the first closing bracket after it. *)
Lemma versionOf_listingPattern_result (p slug key v : string) :
  versionOf (listingPattern p slug) key = Some v ->
  exists a b rest,
    (a = EmptyString \/ a = "/") /\ (b = EmptyString \/ b = "/") /\
    key = a +:+ p +:+ b +:+ listingTag slug +:+ v +:+ String "]" rest /\
    token v = true.
Proof.
  rewrite (versionOf_search _ _ (listingPattern_group p slug)).
  destruct (search_listingPattern p slug key)
    as [->|(a & b & v' & rest & Ha & Hb & -> & Hv & Hsearch)]; [discriminate|].
  cbv zeta in Hsearch. rewrite Hsearch.
  change (cap_lookup 1 [(1, ?span)]) with (Some span). cbv iota.
  replace (a +:+ p +:+ b +:+ listingTag slug +:+ v' +:+ String "]" rest)
    with ((a +:+ p +:+ b +:+ listingTag slug) +:+ v' +:+ String "]" rest)
    by (by rewrite !string_app_assoc).
  rewrite slice_middle by (rewrite !string_length_app; lia).
  intros [= <-]. exists a, b, rest. rewrite !string_app_assoc. done.
Qed.

Lemma versionOf_listingPattern_matches (p slug a b v rest : string) :
  (a = EmptyString \/ a = "/") -> (b = EmptyString \/ b = "/") ->
  token v = true ->
  is_Some (versionOf (listingPattern p slug)
             (a +:+ p +:+ b +:+ listingTag slug +:+ v +:+ String "]" rest)).
Proof.
  intros Ha Hb Hv. rewrite (versionOf_search _ _ (listingPattern_group p slug)).
  unfold listingPattern. rewrite concat_of_cons, search_anchored_start.
  fold (listingTag slug).
  destruct (rmatch_convention_matches p (listingTag slug)
              (OpCapture 1 (OpStar false OpAnyCharNotNL)) [OpLiteral "]"]
              a b (v +:+ String "]" rest) [] (fun j _ c => Some (j, c)) Ha Hb)
    as [[j c] ->]; [|done].
  rewrite rmatch_version, (proj2 (until_bracket_spec _ v rest)); done.
Qed.

(** ** One version for a key *)

Lemma string_app_inv_head (x s s' : string) : x +:+ s = x +:+ s' -> s = s'.
Proof.
  induction x as [|c x IH]; [by rewrite !string_app_nil_l|].
  rewrite !string_app_cons. intros [= H]. by apply IH.
Qed.

Lemma token_unique (v v' rest rest' : string) :
  token v = true -> token v' = true ->
  v +:+ String "]" rest = v' +:+ String "]" rest' -> v = v'.
Proof.
  intros Hv Hv' Heq.
  pose proof (proj2 (until_bracket_spec _ v rest) (conj eq_refl Hv)) as H.
  rewrite Heq, (proj2 (until_bracket_spec _ v' rest') (conj eq_refl Hv')) in H.
  by injection H as ->.
Qed.

Lemma TrimLeft_head (s cutset : string) (c : ascii) (t : string) :
  strings_TrimLeft s cutset = String c t -> byte_in c cutset = false.
Proof.
  induction s as [|d s IH]; simpl; [discriminate|].
  destruct (byte_in d cutset) eqn:Hd; [exact IH|]. by intros [= <- _].
Qed.

Lemma TrimRight_head (s cutset : string) (c : ascii) (t : string) :
  strings_TrimRight s cutset = String c t -> exists s', s = String c s'.
Proof.
  destruct s as [|d s]; simpl; [discriminate|].
  destruct (strings_TrimRight s cutset); [destruct (byte_in d cutset)|];
    intros [= <- _]; eauto.
Qed.

(** The trimmed prefix does not begin with a slash. *)
Lemma Trim_head (s : string) (t : string) : strings_Trim s "/" <> String "/" t.
Proof.
  unfold strings_Trim. intros H. apply TrimRight_head in H as [s' H].
  apply TrimLeft_head in H. discriminate H.
Qed.

Ltac string_norm H :=
  repeat (progress (rewrite ?string_app_nil_l, ?string_app_cons in H)).

(** A key has one version: two readings of a key by the convention
    agree on it. *)
Lemma convention_unique (p tag a b v rest a' b' v' rest' : string) :
  (forall t, p <> String "/" t) ->
  (a = EmptyString \/ a = "/") -> (b = EmptyString \/ b = "/") ->
  (a' = EmptyString \/ a' = "/") -> (b' = EmptyString \/ b' = "/") ->
  token v = true -> token v' = true ->
  a +:+ p +:+ b +:+ String "[" tag +:+ v +:+ String "]" rest
    = a' +:+ p +:+ b' +:+ String "[" tag +:+ v' +:+ String "]" rest' ->
  v = v'.
Proof.
  intros Hp Ha Hb Ha' Hb' Hv Hv'.
  assert (Hsame : forall b b' : string,
            (b = EmptyString \/ b = "/") -> (b' = EmptyString \/ b' = "/") ->
            b +:+ String "[" tag +:+ v +:+ String "]" rest
              = b' +:+ String "[" tag +:+ v' +:+ String "]" rest' -> v = v').
  { intros ? ? [-> | ->] [-> | ->] H; string_norm H; try discriminate H;
      repeat (injection H as H); apply string_app_inv_head in H;
      by apply (token_unique v v' rest rest'). }
  destruct Ha as [-> | ->], Ha' as [-> | ->]; intros H.
  - rewrite !string_app_nil_l in H. apply string_app_inv_head in H. by apply (Hsame b b').
  - rewrite string_app_nil_l in H. destruct p as [|c p].
    + destruct Hb as [-> | ->]; string_norm H; [discriminate H|].
      injection H as H. apply (Hsame EmptyString b'); [by left|done|].
      by rewrite string_app_nil_l.
    + string_norm H. injection H as -> _. by destruct (Hp p).
  - rewrite (string_app_nil_l (p +:+ b' +:+ _)) in H. destruct p as [|c p].
    + destruct Hb' as [-> | ->]; string_norm H; [discriminate H|].
      injection H as H. apply (Hsame b EmptyString); [done|by left|].
      by rewrite string_app_nil_l.
    + string_norm H. injection H as <- _. by destruct (Hp p).
  - string_norm H. injection H as H. apply string_app_inv_head in H. by apply (Hsame b b').
Qed.

Lemma bracketed_tag (slug v rest : string) :
  "[" +:+ slug +:+ "," +:+ v +:+ "]" +:+ rest
    = listingTag slug +:+ v +:+ String "]" rest.
Proof.
  unfold listingTag.
  rewrite (string_app_cons "[" (slug +:+ ",")), (string_app_assoc slug). reflexivity.
Qed.

(** The version of a key, for a prefix that does not begin with a
    slash. *)
Lemma versionOf_listingPattern (p slug key v : string) :
  (forall t, p <> String "/" t) ->
  versionOf (listingPattern p slug) key = Some v <->
  (exists a b rest,
     (a = EmptyString \/ a = "/") /\ (b = EmptyString \/ b = "/") /\
     key = a +:+ p +:+ b +:+ listingTag slug +:+ v +:+ String "]" rest) /\
  token v = true.
Proof.
  intros Hp. split.
  - intros (a & b & rest & Ha & Hb & Hkey & Hv)%versionOf_listingPattern_result.
    split; [|exact Hv]. by exists a, b, rest.
  - intros [(a & b & rest & Ha & Hb & ->) Hv].
    destruct (versionOf_listingPattern_matches p slug a b v rest Ha Hb Hv) as [v' Hv'].
    rewrite Hv'. f_equal.
    destruct (versionOf_listingPattern_result _ _ _ _ Hv')
      as (a' & b' & rest' & Ha' & Hb' & Hkey & Htoken).
    symmetry. unfold listingTag in Hkey.
    by apply (convention_unique _ _ _ _ _ _ _ _ _ _ Hp Ha Hb Ha' Hb' Hv Htoken Hkey).
Qed.

Lemma versionOf_bracketed (s3 : S3Client) (slug key v : string) :
  versionOf (listingPattern (strings_Trim (path s3) "/") slug) key = Some v <->
  bracketed (path s3) slug v key /\ token v = true.
Proof.
  rewrite (versionOf_listingPattern _ _ _ _ (Trim_head (path s3))).
  unfold bracketed. by setoid_rewrite bracketed_tag.
Qed.

(** X9. In a listing whose (trimmed) path prefix is ASCII and whose slug
    is ASCII and free of regex metacharacters, the pattern of
    [GetAllProductVersions] compiles, and the version it extracts from a
    key is the text between the tag [[slug,] and the first closing bracket
    after it, for exactly the keys that begin with the prefix, a slash
    optional before and after it, the tag, and such a text free of line
    feeds: prefix and slug are read byte for byte. *)
Theorem productFile_reads_literally (s3 : S3Client) (slug : string) :
  ascii_only (strings_Trim (path s3) "/") = true ->
  plain slug = true ->
  exists productFile,
    regexp_MustCompile (productFilePattern s3 slug) = Some productFile /\
    forall key version,
      versionOf productFile key = Some version <->
      bracketed (path s3) slug version key /\ token version = true.
Proof.
  intros Hpath Hslug. eexists. split; [by apply productFilePattern_compiles|].
  intros key v. apply versionOf_bracketed.
Qed.

Lemma productFile_reads_literally_witness :
  exists productFile,
    regexp_MustCompile (productFilePattern releaseClient "db") = Some productFile /\
    forall key version,
      versionOf productFile key = Some version <->
      bracketed (path releaseClient) "db" version key /\ token version = true.
Proof. apply productFile_reads_literally; reflexivity. Defined.

End ListingPatterns.

(** ** The queries, by the naming convention *)

Lemma filter_filter_andb {A} (f g : A -> bool) (l : list A) :
  List.filter g (List.filter f l) = List.filter (fun x => f x && g x) l.
Proof.
  induction l as [|x l IH]; [reflexivity|]. simpl.
  destruct (f x); simpl; [destruct (g x)|]; by rewrite IH.
Qed.

Lemma filter_none {A} (f : A -> bool) (l : list A) :
  List.filter f l = [] <-> forall y, y ∈ l -> f y = false.
Proof.
  induction l as [|x l IH]; simpl.
  - split; [|done]. intros _ y Hy. by apply elem_of_nil in Hy.
  - destruct (f x) eqn:Hx.
    + split; [discriminate|]. intros H. specialize (H x (list_elem_of_here _ _)). congruence.
    + rewrite IH. split.
      * intros H y [->|Hy]%elem_of_cons; [exact Hx|by apply H].
      * intros H y Hy. apply H. by right.
Qed.

(** A filter keeps one element exactly when the list has it at one
    place and nothing else in the list passes. *)
Lemma filter_singleton {A} (f : A -> bool) (l : list A) (x : A) :
  List.filter f l = [x] <->
  exists before after,
    l = (before ++ x :: after)%list /\ f x = true /\
    forall y, y ∈ (before ++ after)%list -> f y = false.
Proof.
  induction l as [|z l IH]; simpl.
  - split; [discriminate|]. intros (before & after & H & _). by destruct before.
  - destruct (f z) eqn:Hz.
    + split.
      * intros [= -> Hnone]. exists [], l. split; [reflexivity|]. split; [exact Hz|].
        by apply filter_none.
      * intros ([|b before] & after & Heq & Hx & Hnone).
        -- injection Heq as -> ->. f_equal. by apply filter_none.
        -- injection Heq as -> ->.
           specialize (Hnone b (list_elem_of_here _ _)). congruence.
    + rewrite IH. split.
      * intros (before & after & -> & Hx & Hnone). exists (z :: before), after.
        split; [reflexivity|]. split; [exact Hx|].
        intros y [->|Hy]%elem_of_cons; [exact Hz|by apply Hnone].
      * intros ([|b before] & after & Heq & Hx & Hnone).
        -- injection Heq as -> ->. congruence.
        -- injection Heq as -> ->. exists before, after. split; [reflexivity|].
           split; [exact Hx|]. intros y Hy. apply Hnone. by right.
Qed.

(** X10. With an ASCII prefix and version and a slug free of regex
    metacharacters, [GetLatestProductFile] returns an artifact exactly
    when one listed key follows the convention for the slug and the
    version and has a base filename the glob matches, and no other listed
    key does; the artifact's [Name] is that key. *)
Theorem GetLatestProductFile_by_convention (s3 : S3Client) (slug version glob : string)
    (files : list string) (fa : FileArtifact) :
  listFiles s3 = Ok files ->
  ascii_only (strings_Trim (path s3) "/") = true ->
  plain slug = true ->
  ascii_only version = true ->
  (fst (GetLatestProductFile s3 slug version glob) = Ok fa <->
   exists before after,
     files = (before ++ Name fa :: after)%list /\
     bracketed (path s3) slug version (Name fa) /\
     globMatches glob (Name fa) = true /\
     forall f, f ∈ (before ++ after)%list ->
       ~ (bracketed (path s3) slug version f /\ globMatches glob f = true)).
Proof.
  intros Hfiles Hpath Hslug Hversion.
  pose proof (validFilePattern_compiles s3 slug version Hpath Hslug Hversion) as Hre.
  set (validFile := literalPattern (strings_Trim (path s3) "/") slug version) in *.
  assert (Hone : fst (GetLatestProductFile s3 slug version glob) = Ok fa <->
                 globMatching glob (prefixMatching validFile files) = [Name fa]).
  { rewrite (GetLatestProductFile_cases s3 slug version glob files validFile Hfiles Hre).
    destruct (prefixMatching validFile files) as [|p prefixed]; [by split|].
    destruct fa as [name].
    destruct (globMatching glob (p :: prefixed)) as [|f [|g matched]]; simpl;
      split; intros [=]; by subst. }
  rewrite Hone. unfold globMatching, prefixMatching.
  rewrite filter_filter_andb, filter_singleton.
  split; intros (before & after & Heq & Hfa & Hrest); exists before, after;
    (split; [exact Heq|]).
  - apply andb_true_iff in Hfa as [Hprefix Hglob].
    split; [by apply MatchString_bracketed|]. split; [exact Hglob|].
    intros f Hf [Hb Hg]. specialize (Hrest f Hf). apply MatchString_bracketed in Hb.
    fold validFile in Hb. by rewrite Hb, Hg in Hrest.
  - destruct Hrest as (Hglob & Hrest). apply MatchString_bracketed in Hfa.
    fold validFile in Hfa. split; [by rewrite Hfa, Hglob|].
    intros f Hf. specialize (Hrest f Hf).
    destruct (MatchString validFile f) eqn:Hb; [|reflexivity].
    destruct (globMatches glob f) eqn:Hg; [|reflexivity].
    destruct Hrest. split; [by apply MatchString_bracketed|reflexivity].
Qed.

Lemma GetLatestProductFile_by_convention_witness :
  fst (GetLatestProductFile releaseClient "db" "2.0.0" "*") = Ok (mkFileArtifact "rel/[db,2.0.0]linux.tgz") <->
  exists before after,
    releaseKeys = (before ++ "rel/[db,2.0.0]linux.tgz" :: after)%list /\
    bracketed "rel" "db" "2.0.0" "rel/[db,2.0.0]linux.tgz" /\
    globMatches "*" "rel/[db,2.0.0]linux.tgz" = true /\
    forall f, f ∈ (before ++ after)%list ->
      ~ (bracketed "rel" "db" "2.0.0" f /\ globMatches "*" f = true).
Proof.
  apply (GetLatestProductFile_by_convention releaseClient "db" "2.0.0" "*" releaseKeys
           (mkFileArtifact "rel/[db,2.0.0]linux.tgz")); reflexivity.
Defined.

(** X11. With an ASCII prefix and a slug free of regex metacharacters,
    [GetAllProductVersions] on the listed keys returns a list exactly when
    some key follows the convention for the slug with a version token, and
    fails with the error that names the slug otherwise; the list holds
    the version tokens of the keys that follow the convention, each
    once. *)
Theorem GetAllProductVersions_by_convention (s3 : S3Client) (slug : string)
    (files : list string) :
  listFiles s3 = Ok files ->
  ascii_only (strings_Trim (path s3) "/") = true ->
  plain slug = true ->
  let yields key v := bracketed (path s3) slug v key /\ token v = true in
  ((exists key v, key ∈ files /\ yields key v) ->
   exists versions,
     GetAllProductVersions s3 slug = Ok versions /\
     (forall v, v ∈ versions <-> exists key, key ∈ files /\ yields key v) /\
     NoDup versions) /\
  (~ (exists key v, key ∈ files /\ yields key v) ->
   GetAllProductVersions s3 slug
     = Err (errorString ("no files matching pivnet-product-slug " +:+ slug +:+ " found"))).
Proof.
  intros Hfiles Hpath Hslug yields.
  pose proof (productFilePattern_compiles s3 slug Hpath Hslug) as Hre.
  set (re := listingPattern (strings_Trim (path s3) "/") slug) in *.
  rewrite (GetAllProductVersions_cases s3 slug files re Hfiles Hre).
  destruct (collectVersions_total re files [] ∅ (listingPattern_group _ _))
    as [[collected found] Hloop].
  rewrite Hloop.
  apply (collectVersions_appendNew re files [] collected ∅ found foundAgrees_empty) in Hloop.
  assert (Helem : forall v, v ∈ collected <-> exists key, key ∈ files /\ yields key v).
  { intros v. subst collected. rewrite appendNew_elem. split.
    - intros [Hnil|(key & Hkey & Hv)]; [by apply elem_of_nil in Hnil|].
      exists key. split; [exact Hkey|]. by apply versionOf_bracketed.
    - intros (key & Hkey & Hv). right. exists key. split; [exact Hkey|].
      by apply versionOf_bracketed. }
  split.
  - intros (key & v & Hkey & Hv).
    assert (Hin : v ∈ collected) by (apply Helem; eauto).
    assert (Hnd : NoDup collected) by (rewrite Hloop; apply appendNew_NoDup, NoDup_nil_2).
    clear Hloop. destruct collected as [|c others]; [by apply elem_of_nil in Hin|].
    eexists. split; [reflexivity|]. by split.
  - intros Hnone. clear Hloop. destruct collected as [|c others]; [reflexivity|].
    destruct Hnone. destruct (proj1 (Helem c) (list_elem_of_here _ _)) as (key & Hkey & Hv).
    by exists key, c.
Qed.

Lemma GetAllProductVersions_by_convention_witness :
  ((exists key v, key ∈ releaseKeys /\ bracketed "rel" "db" v key /\ token v = true) ->
   exists versions,
     GetAllProductVersions releaseClient "db" = Ok versions /\
     (forall v, v ∈ versions <->
        exists key, key ∈ releaseKeys /\ bracketed "rel" "db" v key /\ token v = true) /\
     NoDup versions) /\
  (~ (exists key v, key ∈ releaseKeys /\ bracketed "rel" "db" v key /\ token v = true) ->
   GetAllProductVersions releaseClient "db"
     = Err (errorString "no files matching pivnet-product-slug db found")).
Proof.
  apply (GetAllProductVersions_by_convention releaseClient "db" releaseKeys); reflexivity.
Defined.

(** ** The client that [NewS3Client] builds *)

Lemma HasPrefix_carries (msg s : string) :
  strings_HasPrefix msg s = true -> exists b, msg = s +:+ b.
Proof.
  revert msg. induction s as [|c s IH]; intros msg H; [by exists msg|].
  destruct msg as [|d msg]; [discriminate H|]. simpl in H.
  apply andb_true_iff in H as [Hc H]. apply Ascii.eqb_eq in Hc as ->.
  destruct (IH msg H) as [b ->]. by exists b.
Qed.

(** [strings.Contains] decides [carries]. *)
Lemma Contains_carries (msg s : string) :
  strings_Contains msg s = true -> carries msg s.
Proof.
  induction msg as [|c msg IH]; simpl; intros H.
  - rewrite orb_false_r in H. apply HasPrefix_carries in H as [b ->].
    exists EmptyString, b. reflexivity.
  - apply orb_true_iff in H as [H|H].
    + apply HasPrefix_carries in H as [b ->]. exists EmptyString, b. reflexivity.
    + by apply carries_cons, IH.
Qed.

(** X2. [NewS3Client] builds a client exactly when the bucket, the access
    key id, the secret access key and the region are given; otherwise no
    client is built and the error names every required field that is
    missing, one line for each in the order of the struct. *)
Theorem NewS3Client_required (gateway : Stower) (config : S3Configuration) :
  ((exists client, NewS3Client gateway config = Ok client) <->
   Bucket config <> EmptyString /\ AccessKeyID config <> EmptyString /\
   SecretAccessKey config <> EmptyString /\ RegionName config <> EmptyString) /\
  (forall name value,
     (name, value) ∈ requiredFields config -> value = EmptyString ->
     exists err,
       NewS3Client gateway config = Err err /\
       carries (Error err)
         ("Field validation for '" +:+ name +:+ "' failed on the 'required' tag")) /\
  (forall err,
     NewS3Client gateway config = Err err ->
     Error err = strings_Join (map fieldError_Error (fieldErrors (requiredFields config)))
                   (String LF EmptyString)).
Proof.
  destruct config as [b a s r e d v p]. unfold NewS3Client, validate_Struct, requiredFields.
  simpl Bucket. simpl AccessKeyID. simpl SecretAccessKey. simpl RegionName.
  split; [|split].
  - destruct b as [|? ?], a as [|? ?], s as [|? ?], r as [|? ?]; simpl;
      split;
      first [ by intros [client [=]]
            | by intros (? & ? & ? & ?)
            | intros _; eauto
            | intros _; repeat split; discriminate ].
  - intros name value Hin%list_elem_of_In ->. simpl in Hin.
    destruct b as [|? ?], a as [|? ?], s as [|? ?], r as [|? ?];
      destruct Hin as [Heq|[Heq|[Heq|[Heq|[]]]]]; simplify_eq;
      (eexists; split; [reflexivity|]; apply Contains_carries; vm_compute; reflexivity).
  - intros err.
    destruct b as [|? ?], a as [|? ?], s as [|? ?], r as [|? ?]; simpl;
      intros [= <-]; vm_compute; reflexivity.
Qed.

Lemma NewS3Client_client (gateway : Stower) (config : S3Configuration) (client : S3Client) :
  NewS3Client gateway config = Ok client ->
  client = mkS3Client gateway (Bucket config)
             (list_to_map
                [ (s3_ConfigAccessKeyID, AccessKeyID config);
                  (s3_ConfigSecretKey, SecretAccessKey config);
                  (s3_ConfigRegion, RegionName config);
                  (s3_ConfigEndpoint, Endpoint config);
                  (s3_ConfigDisableSSL, strconv_FormatBool (DisableSSL config));
                  (s3_ConfigV2Signing, strconv_FormatBool (EnableV2Signing config)) ])
             (Path config).
Proof.
  unfold NewS3Client. destruct (validate_Struct config); [discriminate|]. by intros [= <-].
Qed.

Lemma NewS3Client_endpoint_key (gateway : Stower) (config : S3Configuration)
    (client : S3Client) :
  NewS3Client gateway config = Ok client ->
  Config client !! "endpoint" = Some (Endpoint config).
Proof.
  intros ->%NewS3Client_client. simpl.
  unfold s3_ConfigAccessKeyID, s3_ConfigSecretKey, s3_ConfigRegion, s3_ConfigEndpoint.
  by simplify_map_eq.
Qed.

(** X8. For a client that [NewS3Client] built, the endpoint of the
    configuration decides what a failure to resolve the container looks
    like: with an endpoint, [listFiles] and [initializeBlobReader] return
    the error that quotes that endpoint and the underlying error; without
    one, the underlying error itself. *)
Theorem NewS3Client_endpoint (gateway : Stower) (config : S3Configuration)
    (client : S3Client) (location : Location) (err : error) (filename : string) :
  NewS3Client gateway config = Ok client ->
  Stower_Dial gateway "s3" (Config client) = Ok location ->
  Location_Container location (Bucket config) = Err err ->
  let reported :=
    if String.eqb (Endpoint config) EmptyString then err
    else errorString ("Could not reach provided endpoint: '" +:+ Endpoint config +:+
                      "': " +:+ Error err) in
  listFiles client = Err reported /\ initializeBlobReader client filename = Err reported.
Proof.
  intros Hclient Hdial Hcontainer.
  pose proof (NewS3Client_endpoint_key _ _ _ Hclient) as Hkey.
  pose proof (NewS3Client_client _ _ _ Hclient) as Hfields.
  assert (Hstower : stower client = gateway) by (by rewrite Hfields).
  assert (Hbucket : bucket client = Bucket config) by (by rewrite Hfields).
  unfold listFiles, initializeBlobReader.
  rewrite Hstower, Hdial, Hbucket, Hcontainer.
  unfold containerError, Config_Config. rewrite Hkey.
  destruct (String.eqb (Endpoint config) EmptyString); simpl; [by split|].
  rewrite string_app_nil_r. by split.
Qed.

Lemma NewS3Client_endpoint_witness :
  exists client,
    NewS3Client (memStower "releases" releases)
      (releaseConfiguration "missing" "http://minio.local:9000") = Ok client /\
    listFiles client
      = Err (errorString "Could not reach provided endpoint: 'http://minio.local:9000': NoSuchBucket: The specified bucket does not exist").
Proof.
  eexists. split; [reflexivity|].
  apply (NewS3Client_endpoint (memStower "releases" releases)
           (releaseConfiguration "missing" "http://minio.local:9000") _
           (mkLocation (fun n =>
              if String.eqb n "releases" then Ok (memContainer releases)
              else Err (foreign "NoSuchBucket: The specified bucket does not exist")))
           (foreign "NoSuchBucket: The specified bucket does not exist") EmptyString);
    reflexivity.
Defined.

(** ** The listing *)

(** The closure of [listFiles] over items met without a problem: their
    ids are appended in the order of the walk. *)
Lemma walk_visits_items (items : list Item) (later : list visit) (paths : list string) :
  walk_visits (map Visited items ++ later)%list collectPaths paths
    = walk_visits later collectPaths (paths ++ map Item_ID items)%list.
Proof.
  revert paths. induction items as [|item items IH]; intros paths; simpl.
  - by rewrite List.app_nil_r.
  - rewrite IH, <- List.app_assoc. reflexivity.
Qed.

(** X5. With a gateway that walks the container as [stow.Walk] does,
    [listFiles] returns the ids of the items in the order in which the walk
    meets them; a problem met while paging is returned as the error,
    whatever was collected before it and whatever comes after. *)
Theorem listFiles_walk_order (s : S3Client) (location : Location) (container : Container) :
  Stower_Dial (stower s) "s3" (Config s) = Ok location ->
  Location_Container location (bucket s) = Ok container ->
  (forall fn paths,
     Stower_Walk (stower s) container stow_NoPrefix 100 fn paths
       = stow_Walk container stow_NoPrefix 100 fn paths) ->
  (forall items,
     Container_Items container = map Visited items -> items <> [] ->
     listFiles s = Ok (map Item_ID items)) /\
  (forall items err later,
     Container_Items container = (map Visited items ++ Problem err :: later)%list ->
     listFiles s = Err err).
Proof.
  intros Hdial Hcontainer Hwalk. unfold listFiles.
  rewrite Hdial, Hcontainer, Hwalk. unfold stow_Walk. split.
  - intros items Hitems Hsome. rewrite Hitems.
    rewrite <- (List.app_nil_r (map Visited items)), walk_visits_items. simpl.
    destruct items as [|item items]; [done|reflexivity].
  - intros items err later Hitems. rewrite Hitems, walk_visits_items. reflexivity.
Qed.

Lemma listFiles_walk_order_witness :
  listFiles releaseClient = Ok (map Item_ID releases) /\
  listFiles interruptedClient = Err (foreign "RequestTimeout").
Proof.
  split.
  - apply (listFiles_walk_order releaseClient
             (mkLocation (fun n =>
                if String.eqb n "releases" then Ok (memContainer releases)
                else Err (foreign "NoSuchBucket: The specified bucket does not exist")))
             (memContainer releases) eq_refl eq_refl (fun _ _ => eq_refl));
      [reflexivity|discriminate].
  - apply (proj2 (listFiles_walk_order interruptedClient
                    (mkLocation (fun _ => Ok interruptedContainer)) interruptedContainer
                    eq_refl eq_refl (fun _ _ => eq_refl))
             releases (foreign "RequestTimeout")
             [Visited (memItem "rel/[db,3.0.0]linux.tgz" "x")]).
    reflexivity.
Defined.

(** X12. What a success guarantees: a listing that succeeds is never
    empty, neither is a list of versions (an empty bucket and a slug
    without files are errors), and an artifact that is returned names a
    listed key whose base filename the glob matches, whatever the slug. *)
Theorem success_guarantees (s3 : S3Client) (slug : string) :
  (forall paths, listFiles s3 = Ok paths -> paths <> []) /\
  (forall versions, GetAllProductVersions s3 slug = Ok versions -> versions <> []) /\
  (forall version glob fa,
     fst (GetLatestProductFile s3 slug version glob) = Ok fa ->
     exists files,
       listFiles s3 = Ok files /\ Name fa ∈ files /\ globMatches glob (Name fa) = true).
Proof.
  split; [|split].
  - intros paths. unfold listFiles.
    destruct (Stower_Dial _ _ _) as [location| |]; try discriminate.
    destruct (Location_Container _ _) as [container| |]; try discriminate.
    destruct (Stower_Walk _ _ _ _ _ _) as [[err|] collected]; [discriminate|].
    destruct collected; [discriminate|]. by intros [= <-].
  - intros versions. unfold GetAllProductVersions.
    destruct (listFiles s3) as [files| |]; try discriminate.
    destruct (regexp_MustCompile _) as [re|]; [|discriminate].
    destruct (collectVersions _ _ _ _) as [[collected found]|]; [|discriminate].
    destruct collected; [discriminate|]. by intros [= <-].
  - intros version glob fa.
    destruct (listFiles s3) as [files| |] eqn:Hfiles;
      [|unfold GetLatestProductFile; rewrite Hfiles; discriminate ..].
    destruct (regexp_MustCompile (validFilePattern s3 slug version)) as [validFile|] eqn:Hre;
      [|unfold GetLatestProductFile; rewrite Hfiles, Hre; discriminate].
    rewrite (GetLatestProductFile_cases s3 slug version glob files validFile Hfiles Hre).
    cbv zeta. destruct (prefixMatching validFile files) as [|p prefixed] eqn:Hp;
      [discriminate|].
    destruct (globMatching glob (p :: prefixed)) as [|f [|g matched]] eqn:Hm;
      try discriminate.
    intros [= <-]. exists files. split; [reflexivity|].
    assert (Hin : In f (globMatching glob (prefixMatching validFile files))).
    { rewrite Hp, Hm. by left. }
    unfold globMatching, prefixMatching in Hin.
    apply filter_In in Hin as [Hin Hglob]. apply filter_In in Hin as [Hin _].
    split; [by apply list_elem_of_In|exact Hglob].
Qed.

(** ** Slashes around the configured path *)

Lemma TrimRight_app_slash (s : string) :
  strings_TrimRight (s +:+ "/") "/" = strings_TrimRight s "/".
Proof.
  induction s as [|c s IH]; [reflexivity|].
  rewrite string_app_cons. simpl. by rewrite IH.
Qed.

Lemma TrimLeft_app_slash (s : string) :
  strings_TrimLeft (s +:+ "/") "/" = strings_TrimLeft s "/" +:+ "/" \/
  (strings_TrimLeft (s +:+ "/") "/" = EmptyString /\ strings_TrimLeft s "/" = EmptyString).
Proof.
  induction s as [|c s IH]; [by right|].
  rewrite string_app_cons. simpl. destruct (Ascii.eqb c "/"); simpl; [exact IH|by left].
Qed.

(** A slash before or after the path changes nothing in what
    [strings.Trim] leaves. *)
Lemma Trim_slash_l (p : string) : strings_Trim (String "/" p) "/" = strings_Trim p "/".
Proof. reflexivity. Qed.

Lemma Trim_slash_r (p : string) : strings_Trim (p +:+ "/") "/" = strings_Trim p "/".
Proof.
  unfold strings_Trim. destruct (TrimLeft_app_slash p) as [->|[-> ->]]; [|reflexivity].
  apply TrimRight_app_slash.
Qed.

(** The queries read the path through [strings.Trim] only. *)
Lemma queries_by_trimmed_path (s3 : S3Client) (p : string) (slug version glob : string) :
  strings_Trim p "/" = strings_Trim (path s3) "/" ->
  let s3' := mkS3Client (stower s3) (bucket s3) (Config s3) p in
  GetAllProductVersions s3' slug = GetAllProductVersions s3 slug /\
  GetLatestProductFile s3' slug version glob = GetLatestProductFile s3 slug version glob.
Proof.
  intros Htrim s3'.
  assert (Hlist : listFiles s3' = listFiles s3) by reflexivity.
  assert (Hp : productFilePattern s3' slug = productFilePattern s3 slug)
    by (unfold productFilePattern; simpl path; by rewrite Htrim).
  assert (Hv : validFilePattern s3' slug version = validFilePattern s3 slug version)
    by (unfold validFilePattern; simpl path; by rewrite Htrim).
  unfold GetAllProductVersions, GetLatestProductFile. by rewrite Hlist, Hp, Hv.
Qed.

Lemma Trim_slashes_l (a p : string) :
  slashes a = true -> strings_Trim (a +:+ p) "/" = strings_Trim p "/".
Proof.
  induction a as [|c a IH]; intros Ha; [reflexivity|].
  simpl in Ha. apply andb_true_iff in Ha as [Hc Ha]. apply Ascii.eqb_eq in Hc as ->.
  rewrite string_app_cons, Trim_slash_l. by apply IH.
Qed.

Lemma Trim_slashes_r (p b : string) :
  slashes b = true -> strings_Trim (p +:+ b) "/" = strings_Trim p "/".
Proof.
  revert p. induction b as [|c b IH]; intros p Hb; [by rewrite string_app_nil_r|].
  simpl in Hb. apply andb_true_iff in Hb as [Hc Hb]. apply Ascii.eqb_eq in Hc as ->.
  replace (p +:+ String "/" b) with ((p +:+ "/") +:+ b)
    by (by rewrite string_app_assoc).
  rewrite (IH _ Hb). apply Trim_slash_r.
Qed.

(** X13. Slashes around the configured path are of no account: a client
    whose path has more slashes in front or at the end answers both
    queries as the client with the path itself. *)
Theorem path_slashes_ignored (s3 : S3Client) (slug version glob : string) (a b : string) :
  slashes a = true -> slashes b = true ->
  let s3' := mkS3Client (stower s3) (bucket s3) (Config s3) (a +:+ path s3 +:+ b) in
  GetAllProductVersions s3' slug = GetAllProductVersions s3 slug /\
  GetLatestProductFile s3' slug version glob = GetLatestProductFile s3 slug version glob.
Proof.
  intros Ha Hb. apply queries_by_trimmed_path.
  by rewrite (Trim_slashes_l a _ Ha), (Trim_slashes_r _ b Hb).
Qed.

Lemma path_slashes_ignored_witness :
  GetAllProductVersions (memClient "releases" "//rel/" releases) "db"
    = GetAllProductVersions releaseClient "db" /\
  GetLatestProductFile (memClient "releases" "//rel/" releases) "db" "1.2.0" "*linux*"
    = GetLatestProductFile releaseClient "db" "1.2.0" "*linux*".
Proof.
  apply (path_slashes_ignored releaseClient "db" "1.2.0" "*linux*" "//" "/");
    reflexivity.
Defined.

(** ** What a download writes *)

Lemma take_bytes_prefix (n : nat) (b : string) : exists rest, b = take_bytes n b +:+ rest.
Proof.
  revert b. induction n as [|n IH]; intros b; [by exists b; destruct b|].
  destruct b as [|c b]; [by exists EmptyString|].
  destruct (IH b) as [rest Hrest]. exists rest. simpl.
  by rewrite string_app_cons, <- Hrest.
Qed.

(** One [Write]: the file grows by a prefix of the bytes, and by all of
    them when no error is returned and none is missing. *)
Lemma File_Write_appends (f : File) (b : string) :
  let '(nw, ew, f') := File_Write f b in
  (exists written rest, file_data f' = file_data f +:+ written /\ b = written +:+ rest) /\
  (ew = None -> file_data f' = file_data f +:+ b).
Proof.
  unfold File_Write. destruct (file_room f) as [room|].
  - destruct (Nat.leb (String.length b) room); simpl.
    + split; [|done]. exists b, EmptyString. by rewrite string_app_nil_r.
    + split; [|discriminate]. destruct (take_bytes_prefix room b) as [rest Hrest].
      by exists (take_bytes room b), rest.
  - simpl. split; [|done]. exists b, EmptyString. by rewrite string_app_nil_r.
Qed.

(** The copy only appends, and what it appends is a prefix of what the
    reader hands over; when it returns no error it appended all of it and
    the reader ended at [io.EOF]. *)
Lemma io_Copy_appends (src : Reader) (dst : File) (bar : Bar) (written : Z) :
  let '(_, err, dst', _) := io_Copy dst src bar written in
  (exists copied rest,
     file_data dst' = file_data dst +:+ copied /\ delivered src = copied +:+ rest) /\
  (err = None ->
   file_data dst' = file_data dst +:+ delivered src /\
   streamBytes src = Some (delivered src)).
Proof.
  revert dst bar written. induction src as [|[buf er] src IH]; intros dst bar written.
  - simpl. split; [|by rewrite string_app_nil_r].
    exists EmptyString, EmptyString. by rewrite string_app_nil_r.
  - simpl io_Copy.
    assert (Hwrite :
      let '(nw, ew, dst') :=
        if Nat.ltb 0 (String.length buf) then File_Write dst buf else (0, None, dst) in
      (exists copied rest, file_data dst' = file_data dst +:+ copied /\ buf = copied +:+ rest) /\
      (ew = None -> Nat.eqb (String.length buf) nw = true ->
       file_data dst' = file_data dst +:+ buf)).
    { destruct buf as [|c buf].
      - simpl. split; [|by rewrite string_app_nil_r].
        exists EmptyString, EmptyString. by rewrite string_app_nil_r.
      - change (Nat.ltb 0 (String.length (String c buf))) with true. cbv iota.
        pose proof (File_Write_appends dst (String c buf)) as H.
        destruct (File_Write dst (String c buf)) as [[nw ew] dst'].
        destruct H as [H1 H2]. split; [exact H1|]. intros Hew _. by apply H2. }
    destruct (if Nat.ltb 0 (String.length buf) then File_Write dst buf else (0, None, dst))
      as [[nw ew] dst'].
    destruct Hwrite as [(copied & rest & Hdata & Hbuf) Hall].
    assert (Hprefix : exists copied' rest',
              file_data dst' = file_data dst +:+ copied' /\
              delivered ((buf, er) :: src) = copied' +:+ rest').
    { exists copied. destruct er as [e|]; simpl.
      - by exists rest.
      - exists (rest +:+ delivered src). by rewrite Hbuf, string_app_assoc. }
    destruct ew as [e|]; [by split|].
    destruct (Nat.eqb (String.length buf) nw) eqn:Hnw; simpl negb; cbv iota;
      [|by split].
    specialize (Hall eq_refl eq_refl).
    destruct er as [e|].
    + destruct e; (split; [exact Hprefix|]); try discriminate; by intros _.
    + specialize (IH dst' (Bar_Add bar (String.length buf)) (written + Z.of_nat nw)%Z).
      destruct (io_Copy dst' src (Bar_Add bar (String.length buf)) (written + Z.of_nat nw)%Z)
        as [[[n err] dst''] bar''].
      destruct IH as [(copied' & rest' & Hdata' & Hsrc) Hdone]. split.
      * exists (buf +:+ copied'), rest'. simpl.
        by rewrite Hdata', Hall, Hsrc, !string_app_assoc.
      * intros Herr. destruct (Hdone Herr) as [Hfile Hstream]. simpl.
        by rewrite Hfile, Hall, Hstream, string_app_assoc.
Qed.

(** X14. A download only appends to the destination, and what it appends
    is a prefix of the bytes the blob's reader hands over; when it returns
    no error the destination got all of them and the reader ended at
    [io.EOF]. *)
Theorem DownloadProductToFile_appends (s3 : S3Client) (fa : FileArtifact) (w : world)
    (blob : Reader) (size : Z) :
  initializeBlobReader s3 (Name fa) = Ok (blob, size) ->
  exists outcome w' bar,
    DownloadProductToFile s3 fa w = (outcome, w', bar) /\
    (exists copied rest,
       file_data (w_file w') = file_data (w_file w) +:+ copied /\
       delivered blob = copied +:+ rest) /\
    (outcome = Ok tt ->
     file_data (w_file w') = file_data (w_file w) +:+ delivered blob /\
     streamBytes blob = Some (delivered blob)).
Proof.
  intros Hopen. unfold DownloadProductToFile. rewrite Hopen.
  unfold startProgressBar, streamBufferToFile.
  pose proof (io_Copy_appends blob (w_file w)
                (Bar_Start (Bar_SetTotal64 progress_NewBar size)) 0) as Hcopy.
  destruct (io_Copy (w_file w) blob (Bar_Start (Bar_SetTotal64 progress_NewBar size)) 0)
    as [[[written err] file'] bar'].
  destruct Hcopy as [Hprefix Hdone].
  destruct err as [e|]; do 3 eexists; (split; [reflexivity|]); simpl;
    (split; [exact Hprefix|]); [discriminate|]. intros _. by apply Hdone.
Qed.

Lemma DownloadProductToFile_appends_witness :
  exists outcome w' bar,
    DownloadProductToFile releaseClient (mkFileArtifact "rel/[db,1.2.0]linux.tgz")
      (mkWorld (mkFile "old" (Some 4)) []) = (outcome, w', bar) /\
    (exists copied rest,
       file_data (w_file w') = "old" +:+ copied /\ "linux-1.2.0" = copied +:+ rest) /\
    (outcome = Ok tt ->
     file_data (w_file w') = "old" +:+ "linux-1.2.0" /\
     streamBytes [("linux-1.2.0", Some io_EOF)] = Some "linux-1.2.0").
Proof.
  apply (DownloadProductToFile_appends releaseClient
           (mkFileArtifact "rel/[db,1.2.0]linux.tgz") (mkWorld (mkFile "old" (Some 4)) [])
           [("linux-1.2.0", Some io_EOF)] 11%Z).
  reflexivity.
Defined.

(** ** The glob and the base filename *)

Lemma Contains_cons (c : ascii) (s : string) :
  strings_Contains (String c s) "/" = Ascii.eqb c "/" || strings_Contains s "/".
Proof. simpl. by rewrite andb_true_r. Qed.

Lemma Contains_app_slash (dir name : string) :
  strings_Contains (dir +:+ String "/" name) "/" = true.
Proof.
  induction dir as [|c dir IH].
  - rewrite string_app_nil_l, Contains_cons. reflexivity.
  - rewrite string_app_cons, Contains_cons, IH. apply orb_true_r.
Qed.

Lemma strip_trailing_separators_cons (c : ascii) (s : string) :
  strip_trailing_separators (String c s) =
    match strip_trailing_separators s with
    | EmptyString => if Ascii.eqb c Separator then EmptyString else String c EmptyString
    | t => String c t
    end.
Proof. reflexivity. Qed.

Lemma last_element_cons (c : ascii) (s : string) :
  last_element (String c s) =
    if strings_Contains s "/" then last_element s
    else if Ascii.eqb c Separator then s else String c s.
Proof. reflexivity. Qed.

(** A name without a slash keeps its end. *)
Lemma strip_trailing_separators_name (name : string) :
  strings_Contains name "/" = false -> strip_trailing_separators name = name.
Proof.
  induction name as [|c name IH]; [reflexivity|].
  rewrite Contains_cons. intros [Hc Hname]%orb_false_iff.
  rewrite strip_trailing_separators_cons, (IH Hname).
  destruct name; [|reflexivity]. change Separator with "/"%char. by rewrite Hc.
Qed.

Lemma strip_trailing_separators_app (x name : string) :
  name <> EmptyString -> strings_Contains name "/" = false ->
  strip_trailing_separators (x +:+ name) = x +:+ name.
Proof.
  intros Hne Hname. induction x as [|c x IH].
  - rewrite string_app_nil_l. by apply strip_trailing_separators_name.
  - rewrite string_app_cons, strip_trailing_separators_cons, IH.
    destruct (x +:+ name) eqn:Hx; [|reflexivity].
    destruct x; [|discriminate Hx]. rewrite string_app_nil_l in Hx. by destruct Hne.
Qed.

Lemma last_element_join (dir name : string) :
  strings_Contains name "/" = false ->
  last_element (dir +:+ String "/" name) = name.
Proof.
  intros Hname. induction dir as [|c dir IH].
  - rewrite string_app_nil_l, last_element_cons, Hname. reflexivity.
  - rewrite string_app_cons, last_element_cons, Contains_app_slash. exact IH.
Qed.

Lemma last_element_name (name : string) :
  strings_Contains name "/" = false -> last_element name = name.
Proof.
  destruct name as [|c name]; [reflexivity|].
  rewrite Contains_cons. intros [Hc Hname]%orb_false_iff.
  rewrite last_element_cons, Hname. change Separator with "/"%char. by rewrite Hc.
Qed.

(** [filepath.Base] of a name in a directory, and of the name alone. *)
Lemma filepath_Base_join (dir name : string) :
  name <> EmptyString -> strings_Contains name "/" = false ->
  filepath_Base (dir +:+ String "/" name) = name /\ filepath_Base name = name.
Proof.
  intros Hne Hname. unfold filepath_Base. split.
  - destruct (dir +:+ String "/" name) eqn:Hkey.
    { destruct dir; discriminate Hkey. }
    rewrite <- Hkey.
    replace (dir +:+ String "/" name) with ((dir +:+ "/") +:+ name)
      by (by rewrite string_app_assoc).
    rewrite (strip_trailing_separators_app _ _ Hne Hname), string_app_assoc.
    change ("/" +:+ name) with (String "/" name).
    rewrite (last_element_join _ _ Hname). by destruct name.
  - destruct name as [|c name]; [by destruct Hne|].
    rewrite (strip_trailing_separators_name _ Hname), (last_element_name _ Hname).
    reflexivity.
Qed.

(** X15. A glob is matched against what follows the last slash of a key:
    keys that end in the same file name are matched alike, whatever
    directory they are in, and as the file name itself. *)
Theorem glob_sees_base_only (glob dir name : string) :
  name <> EmptyString -> strings_Contains name "/" = false ->
  globMatches glob (dir +:+ "/" +:+ name) = fst (filepath_Match glob name) /\
  globMatches glob name = fst (filepath_Match glob name).
Proof.
  intros Hne Hname. unfold globMatches.
  destruct (filepath_Base_join dir name Hne Hname) as [Hjoin Halone].
  change ("/" +:+ name) with (String "/" name). by rewrite Hjoin, Halone.
Qed.

Lemma glob_sees_base_only_witness :
  globMatches "*linux*" ("rel/nightly" +:+ "/" +:+ "[db,1.2.0]linux.tgz")
    = fst (filepath_Match "*linux*" "[db,1.2.0]linux.tgz") /\
  globMatches "*linux*" "[db,1.2.0]linux.tgz"
    = fst (filepath_Match "*linux*" "[db,1.2.0]linux.tgz").
Proof.
  apply (glob_sees_base_only "*linux*" "rel/nightly" "[db,1.2.0]linux.tgz");
    [discriminate|reflexivity].
Defined.

(** What follows the last slash holds no slash. *)
Lemma last_element_no_slash (s : string) :
  strings_Contains (last_element s) "/" = false.
Proof.
  induction s as [|c s IH]; [reflexivity|].
  rewrite last_element_cons. destruct (strings_Contains s "/") eqn:Hs; [exact IH|].
  change Separator with "/"%char. destruct (Ascii.eqb c "/") eqn:Hc; [exact Hs|].
  by rewrite Contains_cons, Hc, Hs.
Qed.

Lemma strip_trailing_separators_slashes (s : string) :
  strip_trailing_separators s = EmptyString <-> slashes s = true.
Proof.
  induction s as [|c s IH]; [done|].
  rewrite strip_trailing_separators_cons. simpl slashes. change Separator with "/"%char.
  destruct (strip_trailing_separators s) eqn:Hs.
  - rewrite (proj1 IH eq_refl), andb_true_r. by destruct (Ascii.eqb c "/").
  - split; [discriminate|]. intros [_ H]%andb_true_iff. by apply IH in H.
Qed.

(** A path that does not end in a slash has a last element. *)
Lemma last_element_stripped (s : string) :
  last_element (strip_trailing_separators s) = EmptyString ->
  strip_trailing_separators s = EmptyString.
Proof.
  induction s as [|c s IH]; [done|].
  rewrite strip_trailing_separators_cons.
  destruct (strip_trailing_separators s) as [|d t] eqn:Hs.
  - destruct (Ascii.eqb c Separator) eqn:Hc; [done|].
    rewrite last_element_cons, Hc. simpl. discriminate.
  - rewrite last_element_cons. destruct (strings_Contains (String d t) "/").
    + intros H. discriminate (IH H).
    + destruct (Ascii.eqb c Separator); discriminate.
Qed.

(** The glob [*] matches every base filename but that of a path made of
    slashes. *)
Lemma globMatches_star (key : string) :
  globMatches "*" key = negb (negb (String.eqb key EmptyString) && slashes key).
Proof.
  unfold globMatches.
  change (fst (filepath_Match "*" ?name)) with (negb (strings_Contains name "/")).
  f_equal. unfold filepath_Base. destruct key as [|c key]; [reflexivity|].
  change (String.eqb (String c key) EmptyString) with false. simpl negb. rewrite andb_true_l.
  destruct (last_element (strip_trailing_separators (String c key))) as [|d t] eqn:Hlast.
  - apply last_element_stripped, strip_trailing_separators_slashes in Hlast.
    by rewrite Hlast.
  - rewrite <- Hlast, last_element_no_slash. symmetry. apply not_true_iff_false.
    intros Hs%strip_trailing_separators_slashes. by rewrite Hs in Hlast.
Qed.

(** X16. With the glob [*] and no listed key made of slashes only, the
    lookup returns an artifact exactly when one listed key has the
    (slug, version) prefix, and that key is the artifact. *)
Theorem GetLatestProductFile_star (s3 : S3Client) (slug version : string)
    (files : list string) (validFile : Regexp) (fa : FileArtifact) :
  listFiles s3 = Ok files ->
  regexp_MustCompile (validFilePattern s3 slug version) = Some validFile ->
  (forall f, f ∈ files -> slashes f = false) ->
  (fst (GetLatestProductFile s3 slug version "*") = Ok fa <->
   prefixMatching validFile files = [Name fa]).
Proof.
  intros Hfiles Hre Hkeys.
  assert (Hall : globMatching "*" (prefixMatching validFile files)
                 = prefixMatching validFile files).
  { unfold globMatching. apply forallb_filter_id, forallb_forall.
    intros f [Hf _]%filter_In. rewrite globMatches_star.
    by rewrite (Hkeys f (proj2 (list_elem_of_In _ _) Hf)), andb_false_r. }
  rewrite (GetLatestProductFile_cases s3 slug version "*" files validFile Hfiles Hre).
  cbv zeta. rewrite Hall.
  destruct (prefixMatching validFile files) as [|p [|q prefixed]]; destruct fa as [name];
    simpl; split; intros [=]; by subst.
Qed.

Lemma GetLatestProductFile_star_witness :
  fst (GetLatestProductFile releaseClient "db" "2.0.0" "*")
    = Ok (mkFileArtifact "rel/[db,2.0.0]linux.tgz").
Proof.
  apply (GetLatestProductFile_star releaseClient "db" "2.0.0" releaseKeys latestValidFile
           (mkFileArtifact "rel/[db,2.0.0]linux.tgz")).
  - reflexivity.
  - vm_compute. reflexivity.
  - intros f Hf. repeat (apply elem_of_cons in Hf as [->|Hf]; [reflexivity|]).
    by apply elem_of_nil in Hf.
  - vm_compute. reflexivity.
Defined.

(** ** From the listing to the lookup *)

(** The versions of a listing, by the naming convention. *)
Lemma GetAllProductVersions_listed (s3 : S3Client) (slug : string)
    (files versions : list string) (v : string) :
  listFiles s3 = Ok files ->
  ascii_only (strings_Trim (path s3) "/") = true ->
  plain slug = true ->
  GetAllProductVersions s3 slug = Ok versions ->
  v ∈ versions ->
  exists key, key ∈ files /\ bracketed (path s3) slug v key /\ token v = true.
Proof.
  intros Hfiles Hpath Hslug Hversions Hv.
  pose proof (productFilePattern_compiles s3 slug Hpath Hslug) as Hre.
  set (re := listingPattern (strings_Trim (path s3) "/") slug) in *.
  rewrite (GetAllProductVersions_cases s3 slug files re Hfiles Hre) in Hversions.
  destruct (collectVersions re files [] ∅) as [[collected found]|] eqn:Hloop;
    [|discriminate Hversions].
  apply (collectVersions_appendNew re files [] collected ∅ found foundAgrees_empty) in Hloop.
  assert (Heq : versions = collected)
    by (destruct collected; [discriminate Hversions|by injection Hversions]).
  subst versions collected.
  apply appendNew_elem in Hv as [Hnil|(key & Hkey & Hversion)];
    [by apply elem_of_nil in Hnil|].
  exists key. split; [exact Hkey|]. by apply versionOf_bracketed.
Qed.

(** X17. A version that the listing returns can be looked up: with an ASCII
    prefix, a slug free of regex metacharacters and an ASCII version, the
    lookup pattern for a listed version compiles and some listed key has
    the prefix, so [GetLatestProductFile] does not answer that no product
    file has the prefix, whatever the glob; it calls [filepath.Match]. *)
Theorem listed_version_resolves (s3 : S3Client) (slug version glob : string)
    (files versions : list string) :
  listFiles s3 = Ok files ->
  ascii_only (strings_Trim (path s3) "/") = true ->
  plain slug = true ->
  GetAllProductVersions s3 slug = Ok versions ->
  version ∈ versions ->
  ascii_only version = true ->
  (exists key, key ∈ files /\ bracketed (path s3) slug version key) /\
  snd (GetLatestProductFile s3 slug version glob) <> [] /\
  ((exists fa, fst (GetLatestProductFile s3 slug version glob) = Ok fa) \/
   fst (GetLatestProductFile s3 slug version glob)
     = Err (errorString ("the glob '" +:+ glob +:+ "' matches no file")) \/
   exists msg,
     fst (GetLatestProductFile s3 slug version glob) = Err (errorString msg) /\
     carries msg "matches multiple files").
Proof.
  intros Hfiles Hpath Hslug Hversions Hv Hascii.
  destruct (GetAllProductVersions_listed s3 slug files versions version
              Hfiles Hpath Hslug Hversions Hv) as (key & Hkey & Hbracketed & _).
  split; [by exists key|].
  pose proof (validFilePattern_compiles s3 slug version Hpath Hslug Hascii) as Hre.
  set (validFile := literalPattern (strings_Trim (path s3) "/") slug version) in *.
  rewrite (GetLatestProductFile_cases s3 slug version glob files validFile Hfiles Hre).
  cbv zeta.
  assert (Hin : In key (prefixMatching validFile files)).
  { apply filter_In. split; [by apply list_elem_of_In|]. by apply MatchString_bracketed. }
  destruct (prefixMatching validFile files) as [|p prefixed]; [destruct Hin|].
  destruct (globMatching glob (p :: prefixed)) as [|f [|g matched]].
  - split; [discriminate|]. right. left. simpl. do 2 f_equal.
  - split; [discriminate|]. left. by eexists.
  - split; [discriminate|]. right. right. eexists. split; [reflexivity|].
    unfold fmt_Errorf, ambiguousFormat. cbv [Error].
    generalize (strings_Join (f :: g :: matched) joinSeparator). intros joined.
    simpl. do 10 apply carries_cons. apply carries_app_l.
    do 2 apply carries_cons. exists EmptyString.
    eexists. rewrite string_app_nil_l. reflexivity.
Qed.

Lemma listed_version_resolves_witness :
  (exists key, key ∈ releaseKeys /\ bracketed "rel" "db" "2.0.0" key) /\
  snd (GetLatestProductFile releaseClient "db" "2.0.0" "*.zip") <> [] /\
  ((exists fa, fst (GetLatestProductFile releaseClient "db" "2.0.0" "*.zip") = Ok fa) \/
   fst (GetLatestProductFile releaseClient "db" "2.0.0" "*.zip")
     = Err (errorString ("the glob '" +:+ "*.zip" +:+ "' matches no file")) \/
   exists msg,
     fst (GetLatestProductFile releaseClient "db" "2.0.0" "*.zip") = Err (errorString msg) /\
     carries msg "matches multiple files").
Proof.
  apply (listed_version_resolves releaseClient "db" "2.0.0" "*.zip" releaseKeys
           ["1.2.0"; "2.0.0"]); try reflexivity.
  right. left.
Defined.
